(** * Teleport tunnels of the pathfinder (src/pathfind/teleport.cpp)

    A shallow embedding of [pathfind::teleport_group], [pathfind::teleport_map]
    and [pathfind::manager], followed by the properties of the tunnel
    subsystem: group resolution, fog narrowing, occupancy blocking, the
    accumulation of the adjacency map, and the life cycle of group ids.

    Sets of locations ([std::set<map_location>], [std::unordered_set]) are
    [gset]s, the adjacency relation ([std::unordered_map]) is a [gmap], the
    registry ([std::vector<teleport_group>]) is a list.  Code that can throw
    ([VALIDATE], [mandatory_child]) lives in the [result] monad. *)

From stdpp Require Import gmap strings list.
From Stdlib Require Import Ascii DecimalString DecimalZ DecimalPos.

Local Open Scope Z_scope.

(** ** Standard-library pieces used by the source *)

(** [std::to_string] on an integer: decimal digits, with a leading minus sign
    for negative numbers. *)
Definition to_string (z : Z) : string := NilEmpty.string_of_int (Z.to_int z).

(** [int], the type of the manager's counter and of [to_int]'s result:
    32-bit two's complement.  An increment past [INT_MAX] wraps around to
    [INT_MIN], as the compiled code does. *)
Definition INT_MIN : Z := -2147483648.
Definition INT_MAX : Z := 2147483647.

Definition in_int (z : Z) : Prop := INT_MIN ≤ z ≤ INT_MAX.

(** The representative of [z] modulo 2^32 in the range of [int]. *)
Definition wrap_int (z : Z) : Z := (z - INT_MIN) mod 4294967296 + INT_MIN.

Lemma wrap_int_in_int (z : Z) : in_int (wrap_int z).
Proof.
  unfold in_int, wrap_int, INT_MIN, INT_MAX.
  pose proof (Z.mod_pos_bound (z - -2147483648) 4294967296). lia.
Qed.

Definition int : Type := dsig in_int.

(** The mathematical value of a machine integer. *)
Definition int_val (i : int) : Z := `i.

(** Conversion to [int]. *)
Definition int_of (z : Z) : int := dexist (wrap_int z) (wrap_int_in_int z).

(** [i + n] in machine arithmetic; [++i] is [int_succ]. *)
Definition int_add (i : int) (n : Z) : int := int_of (int_val i + n).
Definition int_succ (i : int) : int := int_add i 1.

(** [map_location]: the two integer coordinates of a hex. *)
Abbreviation map_location := (Z * Z)%type (only parsing).

(** [pathfind::teleport_pair]: a pair of location sets, sources first. *)
Abbreviation teleport_pair := (gset (Z * Z) * gset (Z * Z))%type (only parsing).

(** ** Exceptions *)

Inductive wml_error : Type :=
  | missing_mandatory_wml_key (section key : string)
  | wml_exception (message : string)
  | config_error (message : string).

Inductive result (A : Type) : Type :=
  | Ok (a : A)
  | Throw (e : wml_error).
Arguments Ok {A} a.
Arguments Throw {A} e.

#[export] Instance result_ret : MRet result := λ A a, Ok a.
#[export] Instance result_bind : MBind result := λ A B f r,
  match r with
  | Ok a => f a
  | Throw e => Throw e
  end.

(** [VALIDATE(cond, message)]: throws unless the condition holds. *)
Definition VALIDATE (cond : bool) (e : wml_error) : result unit :=
  if cond then Ok tt else Throw e.

(** ** Rule data: [config], [config_attribute_value], [vconfig] *)

(** Modelled from the spec: the attribute values of a rule-data record
    ([config_attribute_value]; its class is declared outside this translation
    unit).  The interface lists the operations teleport.cpp calls on an
    attribute, and the laws are those of the persisted representation: `id` is
    a string, `reversed` and `saved` are booleans written as yes/no, the
    counter `next_teleport_group_id` is an integer ([to_int] reads an [int]
    back as it was printed), and a key that was never
    written reads as a blank value on which every typed reader returns its
    default. *)
Class AttributeValue (attr : Type) : Type := {
  (* the value of a key that is not present *)
  blank : attr;
  (* assignment from a [std::string] or a string literal *)
  attr_of_string : string → attr;
  (* [str()] and the conversion to [std::string] *)
  attr_str : attr → string;
  (* [empty()] *)
  attr_empty : attr → bool;
  (* [to_bool(def)] *)
  to_bool : attr → bool → bool;
  (* [to_int(def)], an [int] *)
  to_int : attr → int → int;
  to_bool_blank : ∀ def, to_bool blank def = def;
  to_int_blank : ∀ def, to_int blank def = def;
  to_bool_yes : ∀ def, to_bool (attr_of_string "yes") def = true;
  to_bool_no : ∀ def, to_bool (attr_of_string "no") def = false;
  attr_str_of_string : ∀ s, attr_str (attr_of_string s) = s;
  to_int_of_string :
    ∀ (i : int) def, to_int (attr_of_string (to_string (int_val i))) def = i;
}.

Section config.
Context {attr : Type} `{!AttributeValue attr}.

(** A [config]: a map of attributes and an ordered list of tagged
    children. *)
#[warnings="-register-all"]
Inductive config : Type :=
  Config { values : gmap string attr; children : list (string * config) }.

(** [config()] *)
Definition config_empty : config := Config ∅ [].

(** [cfg[key]] on a constant config: the attribute, blank when absent. *)
Definition config_get (cfg : config) (key : string) : attr :=
  default blank (values cfg !! key).

(** [cfg[key] = value] *)
Definition config_set (cfg : config) (key : string) (value : attr) : config :=
  Config (<[key := value]> (values cfg)) (children cfg).

Definition has_attribute (cfg : config) (key : string) : bool :=
  bool_decide (is_Some (values cfg !! key)).

(** the children carrying a given tag, in document order *)
Definition child_range (cfg : config) (key : string) : list config :=
  snd <$> filter (λ kc, kc.1 = key) (children cfg).

Definition child_count (cfg : config) (key : string) : nat :=
  length (child_range cfg key).

Definition child_or_empty (cfg : config) (key : string) : config :=
  default config_empty (head (child_range cfg key)).

(** [mandatory_child(key, n)] throws when there is no such child. *)
Definition mandatory_child (cfg : config) (key : string) (n : nat)
  : result config :=
  match child_range cfg key !! n with
  | Some c => Ok c
  | None => Throw (config_error "Mandatory WML child missing")
  end.

Definition add_child (cfg : config) (key : string) (child : config) : config :=
  Config (values cfg) (children cfg ++ [(key, child)]).

(** A [vconfig] wraps a config; its own [operator[]] reads attributes
    through variable substitution, which is kept abstract. *)
Record vconfig : Type := {
  get_config : config;
  vconfig_get : string → attr;
}.
End config.
Arguments config attr : clear implicits.
Arguments vconfig attr : clear implicits.

(** ** teleport_group *)

Definition reversed_suffix : string := "-__REVERSED__".

Section teleport_group.
Context {attr : Type} `{!AttributeValue attr}.

Record teleport_group : Type := {
  cfg_ : config attr;
  reversed_ : bool;
  id_ : string;
}.

Definition one_child (cfg : config attr) (key : string) : result unit :=
  VALIDATE (bool_decide (child_count cfg key = 1%nat))
    (wml_exception ("The tunnel should have only one '" +:+ key +:+ "' child.")).

(** [teleport_group::teleport_group(const config&)], the constructor used
    when loading from saves. *)
Definition teleport_group_of_config (cfg : config attr) : result teleport_group :=
  _ ← VALIDATE (has_attribute cfg "id") (missing_mandatory_wml_key "tunnel" "id");
  _ ← VALIDATE (has_attribute cfg "reversed")
        (missing_mandatory_wml_key "tunnel" "reversed");
  _ ← one_child cfg "source";
  _ ← one_child cfg "target";
  _ ← one_child cfg "filter";
  mret {| cfg_ := cfg;
          reversed_ := to_bool (config_get cfg "reversed") false;
          id_ := attr_str (config_get cfg "id") |}.

Definition get_teleport_id (g : teleport_group) : string := id_ g.

Definition always_visible (g : teleport_group) : bool :=
  to_bool (config_get (cfg_ g) "always_visible") false.

Definition pass_allied_units (g : teleport_group) : bool :=
  to_bool (config_get (cfg_ g) "pass_allied_units") true.

Definition allow_vision (g : teleport_group) : bool :=
  to_bool (config_get (cfg_ g) "allow_vision") true.

(** [teleport_group::to_config] *)
Definition teleport_group_to_config (g : teleport_group) : config attr :=
  let retval := cfg_ g in
  let retval := config_set retval "saved" (attr_of_string "yes") in
  let retval :=
    config_set retval "reversed"
      (attr_of_string (if reversed_ g then "yes" else "no")) in
  config_set retval "id" (attr_of_string (id_ g)).
End teleport_group.
Arguments teleport_group attr : clear implicits.

(** ** manager *)

Module manager.
Section manager.
Context {attr : Type} `{!AttributeValue attr}.

(** The registry and the counter; the members are the ones the constructor
    initialises.  The counter is a machine integer: it is initialised from
    [to_int(0)], incremented in place and printed by [std::to_string]. *)
Record t : Type := {
  tunnels_ : list (teleport_group attr);
  id_ : int;
}.

(** [manager::add] *)
Definition add (m : t) (group : teleport_group attr) : t :=
  {| tunnels_ := tunnels_ m ++ [group]; id_ := id_ m |}.

(** The loop of [manager::remove]: walk the vector, erase the matching
    groups, keep the others. *)
Fixpoint remove_loop (id : string) (ts : list (teleport_group attr))
  : list (teleport_group attr) :=
  match ts with
  | [] => []
  | g :: ts' =>
      if bool_decide (get_teleport_id g = id)
         || bool_decide (get_teleport_id g = id +:+ reversed_suffix)
      then remove_loop id ts'
      else g :: remove_loop id ts'
  end.

(** [manager::remove] *)
Definition remove (m : t) (id : string) : t :=
  {| tunnels_ := remove_loop id (tunnels_ m); id_ := id_ m |}.

(** [manager::get] *)
Definition get (m : t) : list (teleport_group attr) := tunnels_ m.

(** [manager::to_config] *)
Definition to_config (m : t) : config attr :=
  let store :=
    foldl (λ store tunnel, add_child store "tunnel" (teleport_group_to_config tunnel))
      config_empty (tunnels_ m) in
  config_set store "next_teleport_group_id"
    (attr_of_string (to_string (int_val (id_ m)))).

(** [manager::next_unique_id]: pre-increment, then print.  Returns the id
    and the manager after the call. *)
Definition next_unique_id (m : t) : string * t :=
  let m' := {| tunnels_ := tunnels_ m; id_ := int_succ (id_ m) |} in
  (to_string (int_val (id_ m')), m').

(** One turn of the loop in [manager::manager(const config&)]. *)
Definition load_tunnel (cfg : config attr) (m : t) (i : nat) : result t :=
  tun ← mandatory_child cfg "tunnel" i;
  if negb (to_bool (config_get tun "saved") false) then
    (* logged, then [continue] *)
    mret m
  else
    tunnel ← teleport_group_of_config tun;
    mret (add m tunnel).

Fixpoint load_tunnels (cfg : config attr) (m : t) (idxs : list nat) : result t :=
  match idxs with
  | [] => mret m
  | i :: idxs' => m' ← load_tunnel cfg m i; load_tunnels cfg m' idxs'
  end.

(** [manager::manager(const config&)] *)
Definition of_config (cfg : config attr) : result t :=
  let this :=
    {| tunnels_ := [];
       id_ := to_int (config_get cfg "next_teleport_group_id") (int_of 0) |} in
  let tunnel_count := child_count cfg "tunnel" in
  load_tunnels cfg this (seq 0 tunnel_count).
End manager.
End manager.
Arguments manager.t attr : clear implicits.

(** ** The simulation as teleport.cpp sees it *)

(** The units, teams and boards of the game are external collaborators; the
    class lists the read-only queries the tunnel code makes on them. *)
Class Simulation : Type := {
  unit : Type;
  (* [unit::side()] *)
  side : unit → Z;
  team : Type;
  (* [team::is_enemy(side)] *)
  is_enemy : team → Z → bool;
  (* [team::fogged(loc)] *)
  fogged : team → Z * Z → bool;
  gamemap : Type;
  tod_manager : Type;
  game_data : Type;
  game_lua_kernel : Type;
}.

Section contexts.
Context {sim : Simulation}.

(** [unit_map]: the units by location. *)
Definition unit_map : Type := gmap (Z * Z) unit.

(** The read-only capabilities of a [display_context]. *)
Record display_context : Type := {
  dc_units : unit_map;
  dc_map : gamemap;
  dc_teams : list team;
  dc_hidden_label_categories : list string;
}.

(** [ignore_units_display_context]: the same context with an empty unit
    layer. *)
Definition ignore_units_display_context (dc : display_context) : display_context :=
  {| dc_units := ∅;
     dc_map := dc_map dc;
     dc_teams := dc_teams dc;
     dc_hidden_label_categories := dc_hidden_label_categories dc |}.

(** The capabilities of a [filter_context]; the two pointers may be null. *)
Record filter_context : Type := {
  get_disp_context : display_context;
  get_tod_man : tod_manager;
  get_game_data : option game_data;
  get_lua_kernel : option game_lua_kernel;
}.

(** [ignore_units_filter_context] *)
Definition ignore_units_filter_context (fc : filter_context) : filter_context :=
  {| get_disp_context := ignore_units_display_context (get_disp_context fc);
     get_tod_man := get_tod_man fc;
     get_game_data := get_game_data fc;
     get_lua_kernel := get_lua_kernel fc |}.

(** [game_board], as far as the tunnel code reads it. *)
Record game_board : Type := {
  units : unit_map;
}.
End contexts.

(** The filter engines and the visibility query of the board are external;
    teleport.cpp only calls them.
    - [unit_filter_matches fc filter u] is [unit_filter(filter).matches(u)],
      evaluated in the global filter context [fc];
    - [get_locations cfg fc u locs] is
      [terrain_filter(cfg, fc, false).get_locations(locs, u)]: the value of
      the output set [locs] after the call;
    - [find_visible_unit board loc viewing_team] is the iterator returned by
      [game_board::find_visible_unit], [None] standing for [units().end()]. *)
Class FilterEngine (attr : Type) {sim : Simulation} : Type := {
  unit_filter_matches : filter_context → config attr → unit → bool;
  get_locations :
    config attr → filter_context → unit → gset (Z * Z) → gset (Z * Z);
  find_visible_unit : game_board → Z * Z → team → option unit;
}.

(** ** Construction of a group from authored rule data *)

Section teleport_group_of_vconfig.
Context {attr : Type} `{!AttributeValue attr}.

(** [teleport_group::teleport_group(const vconfig&, bool reversed)].
    [resources::tunnels], whose counter the constructor may advance, is
    threaded through. *)
Definition teleport_group_of_vconfig
    (cfg : vconfig attr) (reversed : bool) (tunnels : manager.t attr)
  : result (teleport_group attr * manager.t attr) :=
  let cfg_0 := get_config cfg in
  _ ← one_child cfg_0 "source";
  _ ← one_child cfg_0 "target";
  _ ← one_child cfg_0 "filter";
  if attr_empty (vconfig_get cfg "id") then
    let '(id, tunnels') := manager.next_unique_id tunnels in
    mret ({| cfg_ := cfg_0; reversed_ := reversed; id_ := id |}, tunnels')
  else
    let id := attr_str (vconfig_get cfg "id") in
    let id := if reversed then id +:+ reversed_suffix else id in
    mret ({| cfg_ := cfg_0; reversed_ := reversed; id_ := id |}, tunnels).
End teleport_group_of_vconfig.

(** ** Group resolution and the adjacency map *)

Section teleport_map.
Context {attr : Type} `{!AttributeValue attr} {sim : Simulation} `{!FilterEngine attr}.

(** The globals [resources::filter_con] and [resources::gameboard]. *)
Variable filter_con : filter_context.
Variable gameboard : game_board.

(** [teleport_group::get_teleport_pair]: [loc_pair] is the output parameter,
    the result is its value after the call. *)
Definition get_teleport_pair
    (g : teleport_group attr) (loc_pair : teleport_pair) (u : unit)
    (ignore_units : bool) : teleport_pair :=
  let fc := if ignore_units then ignore_units_filter_context filter_con
            else filter_con in
  let filter := child_or_empty (cfg_ g) "filter" in
  let source := child_or_empty (cfg_ g) "source" in
  let target := child_or_empty (cfg_ g) "target" in
  if unit_filter_matches filter_con filter u then
    let loc_pair :=
      if reversed_ g then (loc_pair.1, get_locations source fc u loc_pair.2)
      else (get_locations source fc u loc_pair.1, loc_pair.2) in
    if reversed_ g then (get_locations target fc u loc_pair.1, loc_pair.2)
    else (loc_pair.1, get_locations target fc u loc_pair.2)
  else loc_pair.

(** [teleport_map]: the relation, the aggregate sets, and the empty set that
    [get_adjacents] hands out for cells without a tunnel. *)
Record teleport_map : Type := {
  teleport_map_ : gmap (Z * Z) (gset (Z * Z));
  sources_ : gset (Z * Z);
  targets_ : gset (Z * Z);
  empty_set_ : gset (Z * Z);
}.

Section constructor.
Variable u : unit.
Variable viewing_team : team.
Variables see_all ignore_units check_vision : bool.

(** Lines 185-197: the cells that are not fogged to the viewing team are
    copied to [filter_locs], which then replaces [locations]. *)
Definition fog_narrowing (group : teleport_group attr) (locations : teleport_pair)
  : teleport_pair :=
  if negb see_all && negb (always_visible group)
     && is_enemy viewing_team (side u)
  then
    (filter (λ loc, fogged viewing_team loc = false) locations.1,
     filter (λ loc, fogged viewing_team loc = false) locations.2)
  else locations.

(** The occupant lookup of lines 203-207. *)
Definition occupant (loc : Z * Z) : option unit :=
  if see_all then units gameboard !! loc
  else find_visible_unit gameboard loc viewing_team.

(** Lines 199-214: occupied cells are erased from the target set. *)
Definition occupancy_blocking (group : teleport_group attr)
    (locations : teleport_pair) : teleport_pair :=
  if negb (pass_allied_units group) && negb ignore_units && negb check_vision
  then (locations.1, filter (λ loc, occupant loc = None) locations.2)
  else locations.

(** Lines 218-224: one source cell is entered into the relation. *)
Definition add_source (targets : gset (Z * Z)) (source : Z * Z)
    (m : gmap (Z * Z) (gset (Z * Z))) : gmap (Z * Z) (gset (Z * Z)) :=
  match m !! source with
  | None => <[source := targets]> m
  | Some old => <[source := old ∪ targets]> m
  end.

(** Lines 216-227: the surviving pair of one group is accumulated. *)
Definition accumulate (tm : teleport_map) (locations : teleport_pair)
  : teleport_map :=
  {| teleport_map_ :=
       set_fold (add_source locations.2) (teleport_map_ tm) locations.1;
     sources_ := sources_ tm ∪ locations.1;
     targets_ := targets_ tm ∪ locations.2;
     empty_set_ := empty_set_ tm |}.

(** The pair of one group after narrowing; [None] when the group is skipped
    by the vision gate of line 180. *)
Definition surviving_locations (group : teleport_group attr)
  : option teleport_pair :=
  if check_vision && negb (allow_vision group) then None
  else
    let locations := get_teleport_pair group (∅, ∅) u ignore_units in
    let locations := fog_narrowing group locations in
    Some (occupancy_blocking group locations).

(** The body of the loop over the groups. *)
Definition teleport_map_step (tm : teleport_map) (group : teleport_group attr)
  : teleport_map :=
  match surviving_locations group with
  | None => tm
  | Some locations => accumulate tm locations
  end.

(** [teleport_map::teleport_map(groups, unit, viewing_team, see_all,
    ignore_units, check_vision)] *)
Definition teleport_map_of (groups : list (teleport_group attr)) : teleport_map :=
  foldl teleport_map_step
    {| teleport_map_ := ∅; sources_ := ∅; targets_ := ∅; empty_set_ := ∅ |}
    groups.
End constructor.

(** [teleport_map::get_adjacents] *)
Definition get_adjacents (tm : teleport_map) (loc : Z * Z) : gset (Z * Z) :=
  match teleport_map_ tm !! loc with
  | None => empty_set_ tm
  | Some adjacents => adjacents
  end.

(** [teleport_map::get_sources] *)
Definition get_sources (tm : teleport_map) : gset (Z * Z) := sources_ tm.

(** [teleport_map::get_targets] *)
Definition get_targets (tm : teleport_map) : gset (Z * Z) := targets_ tm.
End teleport_map.

(** ** The query of the pathfinder *)

Section get_teleport_locations.
Context {attr : Type} `{!AttributeValue attr} {sim : Simulation} `{!FilterEngine attr}.
Variable filter_con : filter_context.
Variable gameboard : game_board.

(** [unit::get_abilities(tag)]: the rule data ([ability_cfg]) of the unit's
    abilities carrying the tag.  The unit class is external. *)
Variable get_abilities : unit → string → list (config attr).

(** [vconfig(cfg, true)]: the view of a config through variable
    substitution.  The vconfig class is external. *)
Variable make_vconfig : config attr → vconfig attr.

(** The inner loop of lines 259-262: the `tunnel` children of one ability
    are turned into forward groups and appended to [groups]. *)
Fixpoint emplace_tunnels (ability_cfg : config attr) (idxs : list nat)
    (groups : list (teleport_group attr)) (tunnels : manager.t attr)
  : result (list (teleport_group attr) * manager.t attr) :=
  match idxs with
  | [] => mret (groups, tunnels)
  | i :: idxs' =>
      teleport_group_cfg ← mandatory_child ability_cfg "tunnel" i;
      gt ← teleport_group_of_vconfig (make_vconfig teleport_group_cfg) false tunnels;
      emplace_tunnels ability_cfg idxs' (groups ++ [gt.1]) gt.2
  end.

(** The outer loop of lines 257-263 over the teleport abilities. *)
Fixpoint ability_groups (abilities : list (config attr))
    (groups : list (teleport_group attr)) (tunnels : manager.t attr)
  : result (list (teleport_group attr) * manager.t attr) :=
  match abilities with
  | [] => mret (groups, tunnels)
  | ability_cfg :: abilities' =>
      gt ← emplace_tunnels ability_cfg (seq 0 (child_count ability_cfg "tunnel"))
             groups tunnels;
      ability_groups abilities' gt.1 gt.2
  end.

(** [pathfind::get_teleport_locations].  [resources::tunnels] is threaded
    through: the group constructor may advance its counter.  [Throw] stands
    for an exception leaving the function; the value the counter has reached
    by then is not part of the result. *)
Definition get_teleport_locations (u : unit) (viewing_team : team)
    (see_all ignore_units check_vision : bool) (tunnels : manager.t attr)
  : result (teleport_map * manager.t attr) :=
  gt ← ability_groups (get_abilities u "teleport") [] tunnels;
  let global_groups := manager.get gt.2 in
  let groups := gt.1 ++ global_groups in
  mret (teleport_map_of filter_con gameboard u viewing_team
          see_all ignore_units check_vision groups, gt.2).
End get_teleport_locations.

(** ** Derived notions used in the statements *)

Section derived.
Context {attr : Type} `{!AttributeValue attr} {sim : Simulation} `{!FilterEngine attr}.

(** The structural invariant both constructors validate: exactly one
    `source`, one `target` and one `filter` child. *)
Definition well_formed (g : teleport_group attr) : Prop :=
  child_count (cfg_ g) "source" = 1%nat
  ∧ child_count (cfg_ g) "target" = 1%nat
  ∧ child_count (cfg_ g) "filter" = 1%nat.

(** A group as it comes back from a save: same id and direction, the saved
    record as rule data. *)
Definition reload (g : teleport_group attr) : teleport_group attr :=
  {| cfg_ := teleport_group_to_config g; reversed_ := reversed_ g; id_ := id_ g |}.

(** An id selects the groups called by it or by it with the reversed
    suffix. *)
Definition selected_by (id : string) (g : teleport_group attr) : Prop :=
  get_teleport_id g = id ∨ get_teleport_id g = id +:+ reversed_suffix.

#[global] Instance selected_by_dec id g : Decision (selected_by id g).
Proof. unfold selected_by. apply _. Defined.

(** The calls a session makes on its manager. *)
Inductive manager_call : Type :=
  | call_add (group : teleport_group attr)
  | call_remove (id : string)
  | call_next_unique_id.

(** A sequence of calls on one manager: the ids issued, in order, and the
    manager afterwards. *)
Fixpoint run_calls (calls : list manager_call) (m : manager.t attr)
  : list string * manager.t attr :=
  match calls with
  | [] => ([], m)
  | call_add group :: calls' => run_calls calls' (manager.add m group)
  | call_remove id :: calls' => run_calls calls' (manager.remove m id)
  | call_next_unique_id :: calls' =>
      let '(id, m') := manager.next_unique_id m in
      let '(ids, m'') := run_calls calls' m' in
      (id :: ids, m'')
  end.

(** How many ids a sequence of calls asks for. *)
Fixpoint issued (calls : list manager_call) : nat :=
  match calls with
  | [] => 0
  | call_next_unique_id :: calls' => S (issued calls')
  | _ :: calls' => issued calls'
  end.

(** The pairs of the groups that pass the vision gate, in group order. *)
Definition survivors (filter_con : filter_context) (gameboard : game_board)
    (u : unit) (viewing_team : team) (see_all ignore_units check_vision : bool)
    (groups : list (teleport_group attr)) : list teleport_pair :=
  omap (surviving_locations filter_con gameboard u viewing_team
          see_all ignore_units check_vision) groups.

(** The targets contributed to cell [s] by a list of surviving pairs. *)
Definition targets_from (s : Z * Z) (pairs : list teleport_pair) : gset (Z * Z) :=
  ⋃ (snd <$> filter (λ p, s ∈ p.1) pairs).

(** What the constructor has built after the groups whose surviving pairs are
    [pairs]: the invariant of its loop. *)
Definition accumulated (pairs : list teleport_pair) (tm : teleport_map) : Prop :=
  (∀ s, teleport_map_ tm !! s
        = if decide (s ∈ ⋃ (fst <$> pairs)) then Some (targets_from s pairs)
          else None)
  ∧ sources_ tm = ⋃ (fst <$> pairs)
  ∧ targets_ tm = ⋃ (snd <$> pairs)
  ∧ empty_set_ tm = ∅.
End derived.

Section records.
Context {attr : Type} `{!AttributeValue attr}.

(** A persisted record the save-game constructor accepts: the two mandatory
    keys and exactly one child of each kind. *)
Definition loadable (cfg : config attr) : Prop :=
  has_attribute cfg "id" = true
  ∧ has_attribute cfg "reversed" = true
  ∧ child_count cfg "source" = 1%nat
  ∧ child_count cfg "target" = 1%nat
  ∧ child_count cfg "filter" = 1%nat.

(** The group a persisted record stands for. *)
Definition group_of_record (cfg : config attr) : teleport_group attr :=
  {| cfg_ := cfg;
     reversed_ := to_bool (config_get cfg "reversed") false;
     id_ := attr_str (config_get cfg "id") |}.

(** A record carrying the `saved` marker. *)
Definition saved (cfg : config attr) : Prop :=
  to_bool (config_get cfg "saved") false = true.

#[global] Instance saved_dec cfg : Decision (saved cfg).
Proof. unfold saved. apply _. Defined.

(** The groups the vision gate of line 180 lets through. *)
Definition passes_vision_gate (check_vision : bool) (g : teleport_group attr) : Prop :=
  check_vision && negb (allow_vision g) = false.

#[global] Instance passes_vision_gate_dec check_vision g :
  Decision (passes_vision_gate check_vision g).
Proof. unfold passes_vision_gate. apply _. Defined.

(** A tunnel record of an ability from which a group can be constructed. *)
Definition constructible (make_vconfig : config attr → vconfig attr)
    (t : config attr) : Prop :=
  child_count (get_config (make_vconfig t)) "source" = 1%nat
  ∧ child_count (get_config (make_vconfig t)) "target" = 1%nat
  ∧ child_count (get_config (make_vconfig t)) "filter" = 1%nat.

(** The groups of a unit's own tunnels, written out record by record: each
    record gives one forward group that keeps the record's rule data; a
    record with an `id` is called by it, a record without draws the next id
    from the counter [c]. *)
Fixpoint own_groups_of (make_vconfig : config attr → vconfig attr)
    (tunnels : list (config attr)) (c : int) : list (teleport_group attr) :=
  match tunnels with
  | [] => []
  | t :: tunnels' =>
      let cfg := make_vconfig t in
      if attr_empty (vconfig_get cfg "id") then
        {| cfg_ := get_config cfg; reversed_ := false;
           id_ := to_string (int_val (int_succ c)) |}
        :: own_groups_of make_vconfig tunnels' (int_succ c)
      else
        {| cfg_ := get_config cfg; reversed_ := false;
           id_ := attr_str (vconfig_get cfg "id") |}
        :: own_groups_of make_vconfig tunnels' c
  end.

(** The ability tunnels that will draw an id from the counter. *)
Definition anonymous_tunnels (make_vconfig : config attr → vconfig attr)
    (abilities : list (config attr)) : nat :=
  length (filter (λ t, attr_empty (vconfig_get (make_vconfig t) "id") = true)
            (abilities ≫= λ a, child_range a "tunnel")).
End records.

(** Are all characters of a string decimal digits or a minus sign? *)
Fixpoint numeral_chars (s : string) : bool :=
  match s with
  | EmptyString => true
  | String c s' =>
      (bool_decide (c = "-"%char)
       || bool_decide (c ∈ ["0"; "1"; "2"; "3"; "4"; "5"; "6"; "7"; "8"; "9"]%char))
      && numeral_chars s'
  end.

(** ** A small concrete world *)

(** Attribute values kept as their text, a board of integer-sided units, and
    region filters that select the single cell named by `x` and `y`.  The
    worked examples below run the embedding on it. *)
Module sample.

Definition string_to_bool (s : string) (def : bool) : bool :=
  if bool_decide (s = "yes") || bool_decide (s = "true") then true
  else if bool_decide (s = "no") || bool_decide (s = "false") then false
  else def.

Definition string_to_int (s : string) (def : int) : int :=
  if bool_decide (s = "") then def
  else match NilEmpty.int_of_string s with
       | Some d => if bool_decide (in_int (Z.of_int d)) then int_of (Z.of_int d)
                   else def
       | None => def
       end.

#[global, refine] Instance string_attribute : AttributeValue string := {|
  blank := "";
  attr_of_string := λ s, s;
  attr_str := λ s, s;
  attr_empty := λ s, bool_decide (s = "");
  to_bool := string_to_bool;
  to_int := string_to_int;
|}.
Proof.
  - intros []; reflexivity.
  - reflexivity.
  - reflexivity.
  - reflexivity.
  - reflexivity.
  - intros i def. unfold string_to_int, to_string.
    rewrite NilEmpty.isi, DecimalZ.of_to.
    rewrite bool_decide_eq_false_2.
    + pose proof (proj2_dsig i) as Hrange.
      rewrite bool_decide_eq_true_2 by exact Hrange.
      apply dsig_eq. unfold int_of, int_val, wrap_int. cbn [proj1_sig dexist].
      destruct Hrange as [Hlo Hhi]. unfold INT_MIN, INT_MAX in *.
      rewrite Z.mod_small by lia. lia.
    + destruct (int_val i) as [|p|p]; simpl; [done| |done].
      pose proof (DecimalPos.Unsigned.to_uint_nonnil p).
      destruct (Pos.to_uint p); done.
Defined.

(** Units are their side number; a team is the set of its enemy sides and the
    set of cells fogged to it. *)
#[global] Instance simulation : Simulation := {|
  unit := Z;
  side := λ u, u;
  team := gset Z * gset (Z * Z);
  is_enemy := λ t s, bool_decide (s ∈ t.1);
  fogged := λ t loc, bool_decide (loc ∈ t.2);
  gamemap := Datatypes.unit;
  tod_manager := Datatypes.unit;
  game_data := Datatypes.unit;
  game_lua_kernel := Datatypes.unit;
|}.

(** A unit filter with a `side` attribute matches the units of that side, one
    without matches every unit; a region filter adds the cell (`x`, `y`) to the
    output set unless a unit of the filter context stands on it; a unit is
    visible to a team when its cell is not fogged to it. *)
#[global] Instance engine : FilterEngine string := {|
  unit_filter_matches := λ fc filter u,
    match values filter !! "side" with
    | None => true
    | Some s => bool_decide (int_val (string_to_int s (int_of 0)) = u)
    end;
  get_locations := λ cfg fc u locs,
    let cell := (int_val (string_to_int (config_get cfg "x") (int_of 0)),
                 int_val (string_to_int (config_get cfg "y") (int_of 0))) in
    match dc_units (get_disp_context fc) !! cell with
    | None => locs ∪ {[cell]}
    | Some _ => locs
    end;
  find_visible_unit := λ board loc viewing_team,
    if fogged viewing_team loc then None else units board !! loc;
|}.

Definition region (x y : string) : config string :=
  Config {["x" := x; "y" := y]} [].

(** A [tunnel] record from (sx, sy) to (tx, ty) with the given attributes,
    open to every unit. *)
Definition tunnel (attrs : gmap string string) (sx sy tx ty : string)
  : config string :=
  Config attrs
    [("source", region sx sy); ("target", region tx ty); ("filter", Config ∅ [])].

Definition as_vconfig (cfg : config string) : vconfig string :=
  {| get_config := cfg; vconfig_get := config_get cfg |}.

(** An anonymous tunnel and a named one. *)
Definition anonymous : vconfig string := as_vconfig (tunnel ∅ "1" "1" "5" "5").
Definition named : vconfig string :=
  as_vconfig (tunnel {["id" := "gate"]} "1" "1" "5" "5").

(** [manager(config())]: no tunnels, counter 0. *)
Definition fresh : manager.t string :=
  {| manager.tunnels_ := []; manager.id_ := int_of 0 |}.

Definition group (id : string) (reversed : bool) (cfg : config string)
  : teleport_group string :=
  {| cfg_ := cfg; reversed_ := reversed; id_ := id |}.

(** Two tunnels leaving (1,1), a third from (2,2) that only side 7 may use. *)
Definition g_a : teleport_group string := group "a" false (tunnel ∅ "1" "1" "5" "5").
Definition g_b : teleport_group string := group "b" false (tunnel ∅ "1" "1" "6" "6").
Definition g_a_reversed : teleport_group string :=
  group "a-__REVERSED__" true (tunnel ∅ "1" "1" "5" "5").
Definition g_side7 : teleport_group string :=
  group "c" false
    (Config ∅ [("source", region "2" "2"); ("target", region "3" "3");
               ("filter", Config {["side" := "7"]} [])]).
Definition g_blocking : teleport_group string :=
  group "d" false (tunnel {["pass_allied_units" := "no"]} "1" "1" "5" "5").

Definition board : game_board := {| units := {[ (5, 5) := 2 ]} |}.
Definition filter_con : filter_context :=
  {| get_disp_context :=
       {| dc_units := units board; dc_map := tt; dc_teams := [];
          dc_hidden_label_categories := [] |};
     get_tod_man := tt; get_game_data := None; get_lua_kernel := None |}.

(** Team 1 is at war with side 2 and does not see (5,5). *)
Definition team1 : team := ({[ 2 ]}, {[ (5, 5) ]}).

Definition registry : manager.t string :=
  {| manager.tunnels_ := [g_a; g_a_reversed; g_b]; manager.id_ := int_of 3 |}.

(** The two groups the named tunnel gives rise to, registered with [g_b]. *)
Definition gate : teleport_group string := group "gate" false (get_config named).
Definition gate_reversed : teleport_group string :=
  group "gate-__REVERSED__" true (get_config named).
Definition gate_registry : manager.t string :=
  {| manager.tunnels_ := [gate; gate_reversed; g_b]; manager.id_ := int_of 0 |}.


(** Units of side 7 carry a teleport ability with one anonymous tunnel from
    (2,2) to (8,8); the others have none. *)
Definition get_abilities (u : Z) (tag : string) : list (config string) :=
  if bool_decide (u = 7) && bool_decide (tag = "teleport")
  then [Config ∅ [("tunnel", tunnel ∅ "2" "2" "8" "8")]]
  else [].

(** A scenario file with one record that is not marked as saved. *)
Definition scenario : config string :=
  Config {["next_teleport_group_id" := "5"]}
    [("tunnel", tunnel {["id" := "raw"; "reversed" := "no"]} "1" "1" "5" "5");
     ("tunnel",
      tunnel {["id" := "kept"; "reversed" := "yes"; "saved" := "yes"]}
        "1" "1" "6" "6")].

(** A saved record without its `id`, and one with two `source` children. *)
Definition no_id : config string :=
  tunnel {["reversed" := "no"; "saved" := "yes"]} "1" "1" "5" "5".
Definition two_sources : config string :=
  Config {["id" := "x"; "reversed" := "no"]}
    [("source", region "1" "1"); ("source", region "2" "2");
     ("target", region "5" "5"); ("filter", Config ∅ [])].

(** A board without the unit on (5,5). *)
Definition filter_con_empty : filter_context :=
  {| get_disp_context :=
       {| dc_units := ∅; dc_map := tt; dc_teams := [];
          dc_hidden_label_categories := [] |};
     get_tod_man := tt; get_game_data := None; get_lua_kernel := None |}.

(** A tunnel named by a numeral, and a group that is always visible. *)
Definition numbered : vconfig string :=
  as_vconfig (tunnel {["id" := "1"]} "1" "1" "5" "5").
Definition g_beacon : teleport_group string :=
  group "e" false (tunnel {["always_visible" := "yes"]} "1" "1" "5" "5").

(** The saved record of the scenario above. *)
Definition kept_record : config string :=
  tunnel {["id" := "kept"; "reversed" := "yes"; "saved" := "yes"]} "1" "1" "6" "6".

(** A group that is no conduit for vision. *)
Definition g_blind : teleport_group string :=
  group "f" false (tunnel {["allow_vision" := "no"]} "1" "1" "6" "6").
End sample.

(** * Properties *)

(** ** Printing integers *)

Lemma to_string_inj (a b : Z) : to_string a = to_string b → a = b.
Proof.
  unfold to_string. intros Heq.
  apply DecimalZ.to_int_inj.
  assert (Some (Z.to_int a) = Some (Z.to_int b)) as Hsome
    by (rewrite <- !NilEmpty.isi; by rewrite Heq).
  by injection Hsome.
Qed.

Lemma numeral_chars_uint (d : Decimal.uint) :
  numeral_chars (NilEmpty.string_of_uint d) = true.
Proof. induction d; simpl; try done; by rewrite IHd. Qed.

Lemma numeral_chars_to_string (z : Z) : numeral_chars (to_string z) = true.
Proof.
  unfold to_string. destruct (Z.to_int z) as [d|d]; simpl.
  - apply numeral_chars_uint.
  - apply numeral_chars_uint.
Qed.

Lemma numeral_chars_reversed_suffix (s : string) :
  numeral_chars (s +:+ reversed_suffix) = false.
Proof.
  induction s as [|c s IH]; [reflexivity|].
  simpl. rewrite IH. apply andb_false_r.
Qed.

Lemma to_string_not_suffixed (a : Z) (s : string) :
  to_string a ≠ s +:+ reversed_suffix.
Proof.
  intros Heq. pose proof (numeral_chars_to_string a) as Hnum.
  rewrite Heq, numeral_chars_reversed_suffix in Hnum. discriminate.
Qed.

Lemma to_string_1 : to_string 1 = "1".
Proof. reflexivity. Qed.

(** ** Machine integers *)

Lemma int_eq (a b : int) : int_val a = int_val b → a = b.
Proof. apply dsig_eq. Qed.

Lemma int_val_in (i : int) : in_int (int_val i).
Proof. apply (proj2_dsig i). Qed.

Lemma int_val_of (z : Z) : int_val (int_of z) = wrap_int z.
Proof. reflexivity. Qed.

Lemma wrap_int_small (z : Z) : in_int z → wrap_int z = z.
Proof.
  unfold in_int, wrap_int, INT_MIN, INT_MAX. intros [Hlo Hhi].
  rewrite Z.mod_small by lia. lia.
Qed.

Lemma int_of_val (i : int) : int_of (int_val i) = i.
Proof. apply int_eq. rewrite int_val_of. apply wrap_int_small, int_val_in. Qed.

Lemma wrap_int_wrap_add (a b : Z) : wrap_int (wrap_int a + b) = wrap_int (a + b).
Proof.
  unfold wrap_int. f_equal.
  replace ((a - INT_MIN) mod 4294967296 + INT_MIN + b - INT_MIN)
    with ((a - INT_MIN) mod 4294967296 + b) by lia.
  rewrite Zplus_mod_idemp_l. f_equal. lia.
Qed.

(** Two integers less than 2^32 apart have different representatives. *)
Lemma wrap_int_window (a b : Z) :
  wrap_int a = wrap_int b → -4294967296 < a - b < 4294967296 → a = b.
Proof.
  unfold wrap_int, INT_MIN. intros Heq Hclose.
  pose proof (Z.div_mod (a - -2147483648) 4294967296).
  pose proof (Z.div_mod (b - -2147483648) 4294967296).
  lia.
Qed.

Lemma int_add_add (i : int) (a b : Z) : int_add (int_add i a) b = int_add i (a + b).
Proof.
  apply int_eq. unfold int_add. rewrite !int_val_of, wrap_int_wrap_add.
  f_equal. lia.
Qed.

Lemma int_add_0 (i : int) : int_add i 0 = i.
Proof. unfold int_add. rewrite Z.add_0_r. apply int_of_val. Qed.

Lemma int_add_succ_l (i : int) (n : nat) :
  int_add (int_succ i) (Z.of_nat n) = int_add i (Z.of_nat (S n)).
Proof.
  unfold int_succ. rewrite int_add_add.
  by replace (1 + Z.of_nat n) with (Z.of_nat (S n)) by lia.
Qed.

Lemma int_val_add_small (i : int) (n : Z) :
  in_int (int_val i + n) → int_val (int_add i n) = int_val i + n.
Proof. intros Hin. unfold int_add. rewrite int_val_of. by apply wrap_int_small. Qed.

Lemma int_add_window (i : int) (a b : Z) :
  int_add i a = int_add i b → -4294967296 < a - b < 4294967296 → a = b.
Proof.
  unfold int_add. intros Heq Hclose.
  apply (f_equal int_val) in Heq. rewrite !int_val_of in Heq.
  apply wrap_int_window in Heq; lia.
Qed.

(** [++i]: the successor, except at [INT_MAX], where it is [INT_MIN]. *)
Lemma int_val_succ (i : int) :
  int_val (int_succ i)
  = if decide (int_val i = INT_MAX) then INT_MIN else int_val i + 1.
Proof.
  pose proof (int_val_in i) as [Hlo Hhi].
  unfold int_succ. case_decide as Hmax.
  - unfold int_add. rewrite int_val_of, Hmax. reflexivity.
  - apply int_val_add_small. unfold in_int, INT_MIN, INT_MAX in *. lia.
Qed.

Lemma int_succ_ne (i : int) : int_val (int_succ i) ≠ int_val i.
Proof.
  rewrite int_val_succ. pose proof (int_val_in i) as [Hlo Hhi].
  case_decide; unfold INT_MIN, INT_MAX in *; lia.
Qed.

(** ** The manager: id issuance *)

Section manager_properties.
Context {attr : Type} `{!AttributeValue attr}.
Implicit Types (m : manager.t attr) (g : teleport_group attr).
Implicit Types (cfg : config attr) (calls : list (manager_call (attr:=attr))).

Lemma config_get_empty (key : string) : config_get (attr:=attr) config_empty key = blank.
Proof. reflexivity. Qed.

Lemma of_config_empty :
  manager.of_config (attr:=attr) config_empty
  = Ok {| manager.tunnels_ := []; manager.id_ := int_of 0 |}.
Proof.
  unfold manager.of_config. rewrite config_get_empty, to_int_blank. reflexivity.
Qed.

Lemma add_id_ m g : manager.id_ (manager.add m g) = manager.id_ m.
Proof. reflexivity. Qed.

Lemma remove_id_ m id : manager.id_ (manager.remove m id) = manager.id_ m.
Proof. reflexivity. Qed.

(** The ids a sequence of calls issues are the successors of the counter in
    machine arithmetic, and the counter advances by the number of ids
    issued. *)
Lemma run_calls_ids calls m :
  (run_calls calls m).1
  = (λ k : nat, to_string (int_val (int_add (manager.id_ m) (Z.of_nat k))))
      <$> seq 1 (issued calls)
  ∧ manager.id_ (run_calls calls m).2
    = int_add (manager.id_ m) (Z.of_nat (issued calls)).
Proof.
  revert m. induction calls as [|c calls IH]; intros m.
  - simpl. split; [done|]. by rewrite int_add_0.
  - destruct c as [g|id|]; cbn [run_calls issued manager.next_unique_id].
    + destruct (IH (manager.add m g)) as [-> ->]. by rewrite add_id_.
    + destruct (IH (manager.remove m id)) as [-> ->]. by rewrite remove_id_.
    + specialize (IH {| manager.tunnels_ := manager.tunnels_ m;
                        manager.id_ := int_succ (manager.id_ m) |}).
      destruct (run_calls calls _) as [ids m''] eqn:Hrun.
      destruct IH as [Hids Hid]. cbn [fst snd manager.id_] in *. split.
      * rewrite <- cons_seq, fmap_cons, <- (fmap_S_seq 1), <- list_fmap_compose.
        f_equal. rewrite Hids.
        apply list_fmap_ext. intros _ k _. cbn [compose].
        unfold int_succ. rewrite int_add_add.
        by replace (1 + Z.of_nat k) with (Z.of_nat (S k)) by lia.
      * rewrite Hid. unfold int_succ. rewrite int_add_add.
        by replace (1 + Z.of_nat (issued calls))
             with (Z.of_nat (S (issued calls))) by lia.
Qed.

(** Up to 2^32 ids in a row are pairwise different. *)
Lemma run_calls_NoDup calls m :
  Z.of_nat (issued calls) ≤ 4294967296 → NoDup (run_calls calls m).1.
Proof.
  intros Hbound. destruct (run_calls_ids calls m) as [-> _].
  apply NoDup_fmap_2_strong; [|apply NoDup_seq].
  intros j k Hj%elem_of_seq Hk%elem_of_seq Heq.
  apply to_string_inj, int_eq, int_add_window in Heq; lia.
Qed.

Lemma issued_replicate (n : nat) :
  issued (replicate n (call_next_unique_id (attr:=attr))) = n.
Proof. induction n; simpl; congruence. Qed.

(** The id a run of [next_unique_id] calls issues at a given position. *)
Lemma run_calls_replicate_lookup (n k : nat) m :
  (k < n)%nat →
  (run_calls (replicate n call_next_unique_id) m).1 !! k
  = Some (to_string (int_val (int_add (manager.id_ m) (Z.of_nat k + 1)))).
Proof.
  intros Hk. destruct (run_calls_ids (replicate n call_next_unique_id) m) as [-> _].
  rewrite issued_replicate, list_lookup_fmap, lookup_seq_lt by done.
  cbn [fmap option_fmap option_map].
  by replace (Z.of_nat (1 + k)) with (Z.of_nat k + 1) by lia.
Qed.

(** As long as the counter has not overflowed, the ids are the decimals of
    the counter's successors. *)
Lemma run_calls_ids_small calls m :
  int_val (manager.id_ m) + Z.of_nat (issued calls) ≤ INT_MAX →
  (run_calls calls m).1
  = (λ k : nat, to_string (int_val (manager.id_ m) + Z.of_nat k))
      <$> seq 1 (issued calls).
Proof.
  intros Hbound. destruct (run_calls_ids calls m) as [-> _].
  apply list_fmap_ext. intros _ k Hk%list_elem_of_lookup_2%elem_of_seq.
  f_equal. apply int_val_add_small.
  pose proof (int_val_in (manager.id_ m)) as [Hlo Hhi].
  unfold in_int, INT_MIN, INT_MAX in *. lia.
Qed.

(** C8, as amended.  [next_unique_id] pre-increments the counter, a 32-bit
    integer, and prints it.  On the manager built from empty rule data the
    counter starts at 0, so as long as no more than [INT_MAX] ids have been
    issued they are "1", "2", ... in order: N calls in a row yield "1".."N"
    for N up to 2147483647, the first id is "1", and "0" is not issued.  On
    any manager, whatever [add] and [remove] calls come in between, up to
    2^32 ids issued in a row are pairwise different. *)
Theorem next_unique_id_issues_1_to_N :
  (∀ m, manager.next_unique_id m
        = (to_string (int_val (int_succ (manager.id_ m))),
           {| manager.tunnels_ := manager.tunnels_ m;
              manager.id_ := int_succ (manager.id_ m) |})
        ∧ (int_val (manager.id_ m) < INT_MAX →
           int_val (int_succ (manager.id_ m)) = int_val (manager.id_ m) + 1))
  ∧ (∃ fresh : manager.t attr,
       manager.of_config config_empty = Ok fresh
       ∧ int_val (manager.id_ fresh) = 0
       ∧ (∀ N : nat,
            Z.of_nat N ≤ INT_MAX →
            (run_calls (replicate N call_next_unique_id) fresh).1
            = (λ k : nat, to_string (Z.of_nat k)) <$> seq 1 N)
       ∧ (∀ calls,
            Z.of_nat (issued calls) ≤ INT_MAX →
            (run_calls calls fresh).1
            = (λ k : nat, to_string (Z.of_nat k)) <$> seq 1 (issued calls))
       ∧ (∀ calls id, head (run_calls calls fresh).1 = Some id → id = "1")
       ∧ (∀ calls, Z.of_nat (issued calls) ≤ INT_MAX →
                   "0" ∉ (run_calls calls fresh).1))
  ∧ (∀ calls m, Z.of_nat (issued calls) ≤ 4294967296 →
                NoDup (run_calls calls m).1).
Proof.
  split; [|split; [|apply run_calls_NoDup]].
  - intros m. split; [done|]. intros Hsmall. rewrite int_val_succ.
    rewrite decide_False; [done|lia].
  - eexists. split; [apply of_config_empty|]. split; [reflexivity|].
    assert (∀ calls,
      Z.of_nat (issued calls) ≤ INT_MAX →
      (run_calls calls {| manager.tunnels_ := []; manager.id_ := int_of 0 |}).1
      = (λ k : nat, to_string (Z.of_nat k)) <$> seq 1 (issued calls)) as Hids.
    { intros calls Hbound. rewrite run_calls_ids_small by exact Hbound.
      apply list_fmap_ext. intros _ k _. f_equal. }
    split; [|split; [|split]].
    + intros N HN. rewrite Hids; by rewrite issued_replicate.
    + done.
    + intros calls id.
      destruct (run_calls_ids calls
        {| manager.tunnels_ := []; manager.id_ := int_of 0 |}) as [-> _].
      destruct (issued calls); simpl; [done|]. by intros [= <-].
    + intros calls Hbound. rewrite Hids by done.
      intros (k & Heq & Hk)%list_elem_of_fmap.
      apply elem_of_seq in Hk. apply (to_string_inj 0) in Heq. lia.
Qed.

(** ** Construction from authored rule data *)

Lemma one_child_ok cfg key :
  child_count cfg key = 1%nat → one_child cfg key = Ok tt.
Proof.
  intros Hc. unfold one_child, VALIDATE. by rewrite bool_decide_eq_true_2.
Qed.

Lemma one_child_inv cfg key r :
  one_child cfg key = Ok r → child_count cfg key = 1%nat.
Proof.
  unfold one_child, VALIDATE. case_bool_decide; [done|discriminate].
Qed.

(** What the constructor returns once the three structural checks pass. *)
Lemma teleport_group_of_vconfig_ok (cfg : vconfig attr) (reversed : bool) m :
  child_count (get_config cfg) "source" = 1%nat →
  child_count (get_config cfg) "target" = 1%nat →
  child_count (get_config cfg) "filter" = 1%nat →
  teleport_group_of_vconfig cfg reversed m
  = if attr_empty (vconfig_get cfg "id") then
      Ok ({| cfg_ := get_config cfg; reversed_ := reversed;
             id_ := to_string (int_val (int_succ (manager.id_ m))) |},
          {| manager.tunnels_ := manager.tunnels_ m;
             manager.id_ := int_succ (manager.id_ m) |})
    else
      Ok ({| cfg_ := get_config cfg; reversed_ := reversed;
             id_ := if reversed
                    then attr_str (vconfig_get cfg "id") +:+ reversed_suffix
                    else attr_str (vconfig_get cfg "id") |}, m).
Proof.
  intros Hs Ht Hf. unfold teleport_group_of_vconfig.
  rewrite !one_child_ok by done. simpl.
  by destruct (attr_empty _).
Qed.

(** A group is only ever returned for rule data that passes the checks. *)
Lemma teleport_group_of_vconfig_inv (cfg : vconfig attr) (reversed : bool) m g m' :
  teleport_group_of_vconfig cfg reversed m = Ok (g, m') →
  child_count (get_config cfg) "source" = 1%nat
  ∧ child_count (get_config cfg) "target" = 1%nat
  ∧ child_count (get_config cfg) "filter" = 1%nat.
Proof.
  unfold teleport_group_of_vconfig.
  destruct (one_child _ "source") as [[]|] eqn:Hs; [|discriminate].
  destruct (one_child _ "target") as [[]|] eqn:Ht; [|discriminate].
  destruct (one_child _ "filter") as [[]|] eqn:Hf; [|discriminate].
  intros _. repeat split; eapply one_child_inv; eassumption.
Qed.

Lemma teleport_group_of_vconfig_well_formed (cfg : vconfig attr) reversed m g m' :
  teleport_group_of_vconfig cfg reversed m = Ok (g, m') → well_formed g.
Proof.
  intros Hok. pose proof (teleport_group_of_vconfig_inv _ _ _ _ _ Hok) as (Hs & Ht & Hf).
  rewrite teleport_group_of_vconfig_ok in Hok by done.
  destruct (attr_empty _); injection Hok as <- _; done.
Qed.

(** C10.  For rule data that passes the structural checks: when the `id`
    attribute is empty the group receives the next counter id, the decimal of
    the incremented 32-bit counter, whatever its [reversed] flag, and the
    counter advances; so a forward group and its reversed twin built from the
    same anonymous rule data carry the ids of two consecutive increments,
    which differ and are not related by the reversed suffix.  When the `id`
    attribute is not empty, the twin's id is the forward id with the suffix
    appended and the counter is left alone. *)
Theorem anonymous_group_gets_counter_id (cfg : vconfig attr) m :
  child_count (get_config cfg) "source" = 1%nat →
  child_count (get_config cfg) "target" = 1%nat →
  child_count (get_config cfg) "filter" = 1%nat →
  (attr_empty (vconfig_get cfg "id") = true →
     (∀ reversed,
        teleport_group_of_vconfig cfg reversed m
        = Ok ({| cfg_ := get_config cfg; reversed_ := reversed;
                 id_ := to_string (int_val (int_succ (manager.id_ m))) |},
              {| manager.tunnels_ := manager.tunnels_ m;
                 manager.id_ := int_succ (manager.id_ m) |}))
     ∧ ∃ forward twin m1 m2,
         teleport_group_of_vconfig cfg false m = Ok (forward, m1)
         ∧ teleport_group_of_vconfig cfg true (manager.add m1 forward) = Ok (twin, m2)
         ∧ get_teleport_id forward
           = to_string (int_val (int_succ (manager.id_ m)))
         ∧ get_teleport_id twin
           = to_string (int_val (int_succ (int_succ (manager.id_ m))))
         ∧ numeral_chars (get_teleport_id forward) = true
         ∧ numeral_chars (get_teleport_id twin) = true
         ∧ get_teleport_id twin ≠ get_teleport_id forward
         ∧ get_teleport_id twin ≠ get_teleport_id forward +:+ reversed_suffix
         ∧ get_teleport_id forward ≠ get_teleport_id twin +:+ reversed_suffix)
  ∧ (attr_empty (vconfig_get cfg "id") = false →
     ∃ forward twin,
       teleport_group_of_vconfig cfg false m = Ok (forward, m)
       ∧ teleport_group_of_vconfig cfg true (manager.add m forward)
         = Ok (twin, manager.add m forward)
       ∧ get_teleport_id forward = attr_str (vconfig_get cfg "id")
       ∧ get_teleport_id twin = get_teleport_id forward +:+ reversed_suffix).
Proof.
  intros Hs Ht Hf. split; intros Hid.
  - split.
    + intros reversed. by rewrite teleport_group_of_vconfig_ok, Hid.
    + do 4 eexists.
      rewrite !teleport_group_of_vconfig_ok, Hid by done. simpl.
      split; [reflexivity|]. split; [reflexivity|]. simpl.
      repeat split; try apply numeral_chars_to_string;
        try apply to_string_not_suffixed.
      intros Heq%to_string_inj.
      exact (int_succ_ne (int_succ (manager.id_ m)) Heq).
  - do 2 eexists. rewrite !teleport_group_of_vconfig_ok, Hid by done.
    repeat split.
Qed.
End manager_properties.

(** ** The manager: removal by id *)

Section remove_properties.
Context {attr : Type} `{!AttributeValue attr}.
Implicit Types (m registry : manager.t attr) (g : teleport_group attr).

(** The loop keeps the groups the id does not select, in their order. *)
Lemma remove_loop_filter (id : string) (ts : list (teleport_group attr)) :
  manager.remove_loop id ts = filter (λ g, ¬ selected_by id g) ts.
Proof.
  induction ts as [|g ts IH]; [done|].
  cbn [manager.remove_loop]. rewrite filter_cons, IH.
  destruct (decide (¬ selected_by id g)) as [Hkeep|Hdrop].
  - rewrite orb_false_intro; [done| |].
    + apply bool_decide_eq_false_2. intros ?. apply Hkeep. by left.
    + apply bool_decide_eq_false_2. intros ?. apply Hkeep. by right.
  - apply dec_stable in Hdrop. destruct Hdrop as [Heq|Heq].
    + by rewrite (bool_decide_eq_true_2 _ Heq).
    + rewrite (bool_decide_eq_true_2 _ Heq). by rewrite orb_true_r.
Qed.

Lemma elem_of_remove registry id g :
  g ∈ manager.get (manager.remove registry id)
  ↔ g ∈ manager.get registry ∧ ¬ selected_by id g.
Proof.
  unfold manager.get, manager.remove. cbn [manager.tunnels_].
  rewrite remove_loop_filter. by rewrite list_elem_of_filter, (comm and).
Qed.

Lemma remove_unrelated registry id :
  (∀ g, g ∈ manager.get registry → ¬ selected_by id g) →
  manager.remove registry id = registry.
Proof.
  intros Hnone. destruct registry as [ts c].
  unfold manager.remove. cbn [manager.tunnels_ manager.id_]. f_equal.
  rewrite remove_loop_filter.
  induction ts as [|g ts IH]; [done|].
  rewrite filter_cons_True.
  - f_equal. apply IH. intros g' Hg'. apply Hnone. by right.
  - apply Hnone. by left.
Qed.

(** C6, as amended.  [remove id] erases exactly the groups whose id is [id] or
    [id] with the reversed suffix, and keeps the others in order, the counter
    untouched.  Hence, for rule data with a non-empty `id`, removing by the
    forward group's id erases both the forward group and the reversed twin
    built from the same rule data; and an id that selects no registered group
    leaves the registry unchanged. *)
Theorem remove_named_tunnel_pair :
  (∀ registry id,
     manager.get (manager.remove registry id)
     = filter (λ g, ¬ selected_by id g) (manager.get registry)
     ∧ manager.id_ (manager.remove registry id) = manager.id_ registry)
  ∧ (∀ (cfg : vconfig attr) m m' forward twin m1 m2 registry,
       attr_empty (vconfig_get cfg "id") = false →
       teleport_group_of_vconfig cfg false m = Ok (forward, m1) →
       teleport_group_of_vconfig cfg true m' = Ok (twin, m2) →
       forward ∈ manager.get registry →
       twin ∈ manager.get registry →
       reversed_ forward = false
       ∧ reversed_ twin = true
       ∧ get_teleport_id twin = get_teleport_id forward +:+ reversed_suffix
       ∧ (forward ∉ manager.get (manager.remove registry (get_teleport_id forward)))
       ∧ (twin ∉ manager.get (manager.remove registry (get_teleport_id forward)))
       ∧ (∀ g, g ∈ manager.get (manager.remove registry (get_teleport_id forward))
               ↔ (g ∈ manager.get registry
                  ∧ get_teleport_id g ≠ get_teleport_id forward
                  ∧ get_teleport_id g ≠ get_teleport_id twin)))
  ∧ (∀ registry id,
       (∀ g, g ∈ manager.get registry →
             get_teleport_id g ≠ id
             ∧ get_teleport_id g ≠ id +:+ reversed_suffix) →
       manager.remove registry id = registry).
Proof.
  split; [|split].
  - intros registry id. split; [|done].
    unfold manager.get, manager.remove. cbn [manager.tunnels_].
    apply remove_loop_filter.
  - intros cfg m m' forward twin m1 m2 registry Hid Hfwd Htwin Hin_fwd Hin_twin.
    pose proof (teleport_group_of_vconfig_inv _ _ _ _ _ Hfwd) as (Hs & Ht & Hf).
    rewrite teleport_group_of_vconfig_ok, Hid in Hfwd, Htwin by done.
    injection Hfwd as <- <-. injection Htwin as <- <-.
    unfold get_teleport_id. cbn [id_ reversed_].
    split; [done|]. split; [done|]. split; [done|].
    split; [|split].
    + rewrite elem_of_remove. intros [_ Hsel]. apply Hsel. by left.
    + rewrite elem_of_remove. intros [_ Hsel]. apply Hsel. by right.
    + intros g. rewrite elem_of_remove. unfold selected_by, get_teleport_id.
      cbn [id_]. tauto.
  - intros registry id Hnone. apply remove_unrelated.
    intros g Hg [Heq|Heq]; destruct (Hnone g Hg); done.
Qed.
End remove_properties.

(** ** The manager: persistence *)

Section persistence.
Context {attr : Type} `{!AttributeValue attr}.
Implicit Types (m : manager.t attr) (g : teleport_group attr) (cfg : config attr).

(** Writing an attribute leaves the children alone. *)
Lemma child_range_config_set cfg key value tag :
  child_range (config_set cfg key value) tag = child_range cfg tag.
Proof. reflexivity. Qed.

Lemma child_count_to_config g tag :
  child_count (teleport_group_to_config g) tag = child_count (cfg_ g) tag.
Proof. reflexivity. Qed.

Lemma config_get_set cfg key value : config_get (config_set cfg key value) key = value.
Proof. unfold config_get, config_set. cbn [values]. by rewrite lookup_insert_eq. Qed.

Lemma config_get_set_ne cfg key key' value :
  key ≠ key' → config_get (config_set cfg key value) key' = config_get cfg key'.
Proof.
  intros Hne. unfold config_get, config_set. cbn [values].
  by rewrite lookup_insert_ne.
Qed.

Lemma has_attribute_set cfg key value : has_attribute (config_set cfg key value) key = true.
Proof.
  unfold has_attribute, config_set. cbn [values].
  rewrite lookup_insert_eq. by apply bool_decide_eq_true_2.
Qed.

Lemma has_attribute_set_ne cfg key key' value :
  key ≠ key' → has_attribute (config_set cfg key value) key' = has_attribute cfg key'.
Proof.
  intros Hne. unfold has_attribute, config_set. cbn [values].
  by rewrite lookup_insert_ne.
Qed.

(** A saved group is marked as saved. *)
Lemma to_config_saved g :
  to_bool (config_get (teleport_group_to_config g) "saved") false = true.
Proof.
  unfold teleport_group_to_config.
  rewrite !config_get_set_ne by done. by rewrite config_get_set, to_bool_yes.
Qed.

(** Loading a saved group gives back its id and its direction; the rule data
    it keeps is the saved record. *)
Lemma teleport_group_reload g :
  well_formed g →
  teleport_group_of_config (teleport_group_to_config g)
  = Ok {| cfg_ := teleport_group_to_config g;
          reversed_ := reversed_ g;
          id_ := id_ g |}.
Proof.
  intros (Hs & Ht & Hf). unfold teleport_group_of_config.
  assert (has_attribute (teleport_group_to_config g) "id" = true) as ->
    by apply has_attribute_set.
  assert (has_attribute (teleport_group_to_config g) "reversed" = true) as ->.
  { unfold teleport_group_to_config.
    rewrite has_attribute_set_ne by done. apply has_attribute_set. }
  rewrite !one_child_ok by (by rewrite child_count_to_config).
  cbn [VALIDATE mbind result_bind mret result_ret]. do 2 f_equal.
  - unfold teleport_group_to_config.
    rewrite config_get_set_ne by done. rewrite config_get_set.
    destruct (reversed_ g); [apply to_bool_yes|apply to_bool_no].
  - unfold teleport_group_to_config.
    by rewrite config_get_set, attr_str_of_string.
Qed.

Lemma store_children (ts : list (teleport_group attr)) (store : config attr) :
  foldl (λ store tunnel, add_child store "tunnel" (teleport_group_to_config tunnel))
    store ts
  = Config (values store)
      (children store ++ ((λ g, ("tunnel", teleport_group_to_config g)) <$> ts)).
Proof.
  revert store. induction ts as [|g ts IH]; intros store.
  - simpl. rewrite app_nil_r. by destruct store.
  - cbn [foldl]. rewrite IH. unfold add_child. cbn [values children].
    by rewrite <- app_assoc.
Qed.

Lemma child_range_tunnels (vals : gmap string attr) (ts : list (teleport_group attr)) :
  child_range (Config vals ((λ g, ("tunnel", teleport_group_to_config g)) <$> ts)) "tunnel"
  = teleport_group_to_config <$> ts.
Proof.
  unfold child_range. cbn [children].
  induction ts as [|g ts IH]; [done|].
  rewrite fmap_cons, filter_cons_True by done. rewrite fmap_cons.
  cbn [snd]. by rewrite IH, fmap_cons.
Qed.

Lemma to_config_tunnels m :
  child_range (manager.to_config m) "tunnel"
  = teleport_group_to_config <$> manager.tunnels_ m.
Proof.
  unfold manager.to_config. rewrite child_range_config_set, store_children.
  apply child_range_tunnels.
Qed.

Lemma to_config_counter m :
  to_int (config_get (manager.to_config m) "next_teleport_group_id") (int_of 0)
  = manager.id_ m.
Proof.
  unfold manager.to_config. by rewrite config_get_set, to_int_of_string.
Qed.

(** The indexed loop of the constructor visits the saved records in order. *)
Lemma load_tunnels_saved cfg (pre suf : list (teleport_group attr)) m :
  child_range cfg "tunnel" = teleport_group_to_config <$> (pre ++ suf) →
  Forall well_formed suf →
  manager.load_tunnels cfg m (seq (length pre) (length suf))
  = Ok {| manager.tunnels_ := manager.tunnels_ m ++ (reload <$> suf);
          manager.id_ := manager.id_ m |}.
Proof.
  intros Hrange. revert pre m Hrange.
  induction suf as [|g suf IH]; intros pre m Hrange Hwf.
  - simpl. rewrite app_nil_r. by destruct m.
  - apply Forall_cons in Hwf as [Hg Hsuf].
    cbn [length seq manager.load_tunnels].
    unfold manager.load_tunnel at 1, mandatory_child.
    rewrite Hrange, list_lookup_fmap, list_lookup_middle by done.
    cbn [fmap option_fmap option_map mbind result_bind].
    rewrite to_config_saved. cbn [negb].
    rewrite teleport_group_reload by done.
    cbn [mbind result_bind mret result_ret].
    specialize (IH (pre ++ [g]) (manager.add m (reload g))).
    rewrite length_app in IH. cbn [length] in IH.
    replace (length pre + 1)%nat with (S (length pre)) in IH by lia.
    unfold reload at 1 in IH. rewrite IH; [|by rewrite <- app_assoc|done].
    unfold manager.add. cbn [manager.tunnels_ manager.id_].
    by rewrite <- app_assoc.
Qed.

(** C7.  Serialising a manager whose groups satisfy the structural invariant
    of their constructors and constructing a manager from the result succeeds:
    the new manager has the same sequence of group ids, the same sequence of
    directionality flags and the same counter; each of its groups keeps the
    saved record as its rule data. *)
Theorem manager_round_trip m :
  Forall well_formed (manager.get m) →
  ∃ m',
    manager.of_config (manager.to_config m) = Ok m'
    ∧ get_teleport_id <$> manager.get m' = get_teleport_id <$> manager.get m
    ∧ reversed_ <$> manager.get m' = reversed_ <$> manager.get m
    ∧ manager.id_ m' = manager.id_ m
    ∧ cfg_ <$> manager.get m' = teleport_group_to_config <$> manager.get m.
Proof.
  intros Hwf. unfold manager.of_config.
  unfold child_count. rewrite to_config_tunnels, length_fmap, to_config_counter.
  rewrite (load_tunnels_saved _ [] (manager.tunnels_ m)); [|apply to_config_tunnels|done].
  eexists. split; [reflexivity|].
  unfold manager.get. cbn [manager.tunnels_ manager.id_ app].
  rewrite <- !list_fmap_compose. done.
Qed.
End persistence.

(** ** Group resolution *)

Section resolution.
Context {attr : Type} `{!AttributeValue attr} {sim : Simulation} `{!FilterEngine attr}.
Variable filter_con : filter_context.
Implicit Types (g : teleport_group attr) (u : unit) (loc_pair : teleport_pair).

(** X22.  The policy flags of a group whose rule data does not mention them:
    not always visible, allied units may pass, vision allowed. *)
Lemma policy_defaults g :
  values (cfg_ g) !! "always_visible" = None →
  values (cfg_ g) !! "pass_allied_units" = None →
  values (cfg_ g) !! "allow_vision" = None →
  always_visible g = false ∧ pass_allied_units g = true ∧ allow_vision g = true.
Proof.
  intros Hv Hp Ha. unfold always_visible, pass_allied_units, allow_vision, config_get.
  rewrite Hv, Hp, Ha. cbn [default from_option id]. by rewrite !to_bool_blank.
Qed.

(** C4.  When the unit filter of the group does not match the unit,
    [get_teleport_pair] leaves the output pair as it found it, whatever the
    region filters select and whatever [ignore_units] is; on the fresh pair
    the adjacency-map constructor passes in, both sets come back empty. *)
Theorem get_teleport_pair_unmatched g u (ignore_units : bool) :
  unit_filter_matches filter_con (child_or_empty (cfg_ g) "filter") u = false →
  get_teleport_pair filter_con g (∅, ∅) u ignore_units = (∅, ∅)
  ∧ ∀ loc_pair, get_teleport_pair filter_con g loc_pair u ignore_units = loc_pair.
Proof.
  intros Hno. unfold get_teleport_pair. rewrite Hno. done.
Qed.

(** The two sets of a resolved group, in terms of the region filters. *)
Lemma get_teleport_pair_matched g u (ignore_units : bool) :
  unit_filter_matches filter_con (child_or_empty (cfg_ g) "filter") u = true →
  let fc := if ignore_units then ignore_units_filter_context filter_con
            else filter_con in
  let from_source := get_locations (child_or_empty (cfg_ g) "source") fc u ∅ in
  let from_target := get_locations (child_or_empty (cfg_ g) "target") fc u ∅ in
  get_teleport_pair filter_con g (∅, ∅) u ignore_units
  = if reversed_ g then (from_target, from_source) else (from_source, from_target).
Proof.
  intros Hyes. unfold get_teleport_pair. rewrite Hyes.
  by destruct (reversed_ g).
Qed.

(** C3.  Two groups with the same `source`, `target` and `filter` rule data
    and opposite [reversed] flags resolve, for the same unit and the same
    [ignore_units], to swapped pairs. *)
Theorem get_teleport_pair_reversed_swaps g g' u (ignore_units : bool) :
  child_or_empty (cfg_ g) "source" = child_or_empty (cfg_ g') "source" →
  child_or_empty (cfg_ g) "target" = child_or_empty (cfg_ g') "target" →
  child_or_empty (cfg_ g) "filter" = child_or_empty (cfg_ g') "filter" →
  reversed_ g' = negb (reversed_ g) →
  (get_teleport_pair filter_con g (∅, ∅) u ignore_units).1
  = (get_teleport_pair filter_con g' (∅, ∅) u ignore_units).2
  ∧ (get_teleport_pair filter_con g (∅, ∅) u ignore_units).2
    = (get_teleport_pair filter_con g' (∅, ∅) u ignore_units).1.
Proof.
  intros Hs Ht Hf Hrev. unfold get_teleport_pair.
  rewrite <- Hs, <- Ht, <- Hf, Hrev.
  destruct (unit_filter_matches _ _ _); [|done].
  by destruct (reversed_ g).
Qed.
End resolution.

(** ** Narrowing *)

Section narrowing.
Context {attr : Type} `{!AttributeValue attr} {sim : Simulation} `{!FilterEngine attr}.
Variable gameboard : game_board.
Implicit Types (group : teleport_group attr) (u : unit) (viewing_team : team).
Implicit Types (locations : teleport_pair).

(** C1.  Fog narrowing never adds a cell: both narrowed sets are subsets of
    the sets it is given (in the constructor, the resolved sets).  With
    [see_all] it returns the pair unchanged, so whatever survives without
    [see_all] survives with it.  The pair changes only if [see_all] is false,
    the group is not always visible and the unit's side is an enemy of the
    viewing team; in that case exactly the cells not fogged to the viewing
    team survive, in the source set and in the target set independently. *)
Theorem fog_narrowing_monotonic u viewing_team group locations :
  (∀ see_all,
     (fog_narrowing u viewing_team see_all group locations).1 ⊆ locations.1
     ∧ (fog_narrowing u viewing_team see_all group locations).2 ⊆ locations.2)
  ∧ fog_narrowing u viewing_team true group locations = locations
  ∧ (fog_narrowing u viewing_team false group locations).1
      ⊆ (fog_narrowing u viewing_team true group locations).1
  ∧ (fog_narrowing u viewing_team false group locations).2
      ⊆ (fog_narrowing u viewing_team true group locations).2
  ∧ (∀ see_all,
       fog_narrowing u viewing_team see_all group locations ≠ locations →
       see_all = false ∧ always_visible group = false
       ∧ is_enemy viewing_team (side u) = true)
  ∧ (∀ see_all,
       see_all = false → always_visible group = false →
       is_enemy viewing_team (side u) = true →
       ∀ loc,
         (loc ∈ (fog_narrowing u viewing_team see_all group locations).1
          ↔ loc ∈ locations.1 ∧ fogged viewing_team loc = false)
         ∧ (loc ∈ (fog_narrowing u viewing_team see_all group locations).2
            ↔ loc ∈ locations.2 ∧ fogged viewing_team loc = false)).
Proof.
  assert (∀ see_all,
    (fog_narrowing u viewing_team see_all group locations).1 ⊆ locations.1
    ∧ (fog_narrowing u viewing_team see_all group locations).2 ⊆ locations.2)
    as Hsub.
  { intros see_all. unfold fog_narrowing.
    destruct (_ && _); cbn [fst snd]; [|done].
    split; intros loc Hloc; by apply elem_of_filter in Hloc as [_ ?]. }
  assert (fog_narrowing u viewing_team true group locations = locations) as Htrue
    by reflexivity.
  split; [done|]. split; [done|].
  rewrite Htrue. split; [apply Hsub|]. split; [apply Hsub|]. split.
  - intros see_all Hne. unfold fog_narrowing in Hne.
    destruct see_all; [done|].
    destruct (always_visible group); [done|].
    destruct (is_enemy viewing_team (side u)); done.
  - intros see_all -> Hvis Henemy loc. unfold fog_narrowing.
    rewrite Hvis, Henemy. cbn [negb andb fst snd].
    split; rewrite elem_of_filter; tauto.
Qed.

(** C2.  Occupancy blocking keeps the source set as it is and only removes
    cells from the target set.  It removes nothing when [ignore_units] or
    [check_vision] is set or the group lets allied units pass.  When it runs,
    a target cell survives exactly when the lookup finds no unit on it: the
    lookup in the unit map of the board with [see_all], the lookup of units
    visible to the viewing team without. *)
Theorem occupancy_blocking_targets_only
    viewing_team (see_all ignore_units check_vision : bool) group locations :
  let blocked :=
    occupancy_blocking gameboard viewing_team see_all ignore_units check_vision
      group locations in
  blocked.1 = locations.1
  ∧ blocked.2 ⊆ locations.2
  ∧ (ignore_units = true ∨ check_vision = true ∨ pass_allied_units group = true →
     blocked = locations)
  ∧ (ignore_units = false → check_vision = false →
     pass_allied_units group = false →
     ∀ loc, loc ∈ blocked.2
            ↔ loc ∈ locations.2
              ∧ (if see_all then units gameboard !! loc
                 else find_visible_unit gameboard loc viewing_team) = None).
Proof.
  cbv zeta. unfold occupancy_blocking, occupant.
  split; [by destruct (_ && _)|]. split; [|split].
  - destruct (_ && _); cbn [snd]; [|done].
    intros loc Hloc. by apply elem_of_filter in Hloc as [_ ?].
  - intros [-> | [-> | ->]]; by rewrite ?andb_false_r.
  - intros -> -> -> loc. cbn [negb andb snd].
    rewrite elem_of_filter. tauto.
Qed.
End narrowing.

(** ** Accumulation into the adjacency map *)

Section accumulation.
Context {attr : Type} `{!AttributeValue attr} {sim : Simulation} `{!FilterEngine attr}.
Variable filter_con : filter_context.
Variable gameboard : game_board.
Variable u : unit.
Variable viewing_team : team.
Variables see_all ignore_units check_vision : bool.
Implicit Types (tm : teleport_map) (groups : list (teleport_group attr)).
Implicit Types (pairs : list teleport_pair) (s loc : Z * Z).

Local Abbreviation build :=
  (teleport_map_of filter_con gameboard u viewing_team see_all ignore_units check_vision).
Local Abbreviation step :=
  (teleport_map_step filter_con gameboard u viewing_team see_all ignore_units check_vision).
Local Abbreviation surviving :=
  (survivors filter_con gameboard u viewing_team see_all ignore_units check_vision).

(** The loop over the source cells of one group: the entry of every source
    cell receives the group's targets, the other entries stay. *)
Lemma set_fold_add_source (targets sources : gset (Z * Z))
    (m : gmap (Z * Z) (gset (Z * Z))) s :
  set_fold (add_source targets) m sources !! s
  = if decide (s ∈ sources)
    then Some (from_option (λ old, old ∪ targets) targets (m !! s))
    else m !! s.
Proof.
  revert s.
  pose (P := λ (r : gmap (Z * Z) (gset (Z * Z))) (X : gset (Z * Z)),
    ∀ s, r !! s
         = if decide (s ∈ X)
           then Some (from_option (λ old, old ∪ targets) targets (m !! s))
           else m !! s).
  apply (set_fold_ind_L P); unfold P; clear P.
  - intros s. destruct (decide (s ∈ (∅ : gset (Z * Z)))) as [Hs|]; [|done].
    by apply not_elem_of_empty in Hs.
  - intros x X r Hx IH s. unfold add_source.
    pose proof (IH x) as Hrx.
    destruct (decide (x ∈ X)) as [|_]; [done|].
    destruct (decide (s = x)) as [->|Hne].
    + destruct (decide (x ∈ {[x]} ∪ X)) as [_|Hn];
        [|exfalso; apply Hn, elem_of_union; left; by apply elem_of_singleton].
      rewrite Hrx. destruct (m !! x); cbn [from_option]; by rewrite lookup_insert_eq.
    + assert ((match r !! x with
               | Some old => <[x:=old ∪ targets]> r
               | None => <[x:=targets]> r
               end) !! s = r !! s) as ->
        by (destruct (r !! x); by rewrite lookup_insert_ne).
      rewrite IH.
      destruct (decide (s ∈ X)) as [Hin|Hout];
        destruct (decide (s ∈ {[x]} ∪ X)) as [Hin'|Hout']; try done.
      * exfalso. apply Hout', elem_of_union. by right.
      * apply elem_of_union in Hin' as [Hsx%elem_of_singleton|?]; done.
Qed.

Lemma elem_of_targets_from s pairs x :
  x ∈ targets_from s pairs ↔ ∃ p, p ∈ pairs ∧ s ∈ p.1 ∧ x ∈ p.2.
Proof.
  unfold targets_from. rewrite elem_of_union_list. split.
  - intros (X & (p & -> & Hp)%list_elem_of_fmap & Hx).
    apply list_elem_of_filter in Hp as [Hs Hp]. eauto.
  - intros (p & Hp & Hs & Hx). exists p.2. split; [|done].
    apply list_elem_of_fmap. exists p. split; [done|].
    by apply list_elem_of_filter.
Qed.

Lemma targets_from_snoc s pairs (p : teleport_pair) :
  targets_from s (pairs ++ [p])
  = targets_from s pairs ∪ (if decide (s ∈ p.1) then p.2 else ∅).
Proof.
  apply set_eq. intros x. rewrite elem_of_union, !elem_of_targets_from.
  setoid_rewrite elem_of_app. setoid_rewrite list_elem_of_singleton. split.
  - intros (q & [Hq | ->] & Hs & Hx); [left; eauto|].
    right. by rewrite decide_True.
  - intros [(q & Hq & Hs & Hx) | Hx]; [eauto 6|].
    destruct (decide (s ∈ p.1)); [eauto 6|set_solver].
Qed.

Lemma targets_from_absent s pairs :
  s ∉ ⋃ (fst <$> pairs) → targets_from s pairs = ∅.
Proof.
  intros Hs. apply set_eq. intros x. rewrite elem_of_targets_from.
  split; [|set_solver]. intros (p & Hp & Hsp & _). exfalso. apply Hs.
  apply elem_of_union_list. exists p.1. split; [|done].
  apply list_elem_of_fmap. eauto.
Qed.

Lemma accumulated_accumulate pairs tm (p : teleport_pair) :
  accumulated pairs tm → accumulated (pairs ++ [p]) (accumulate tm p).
Proof.
  intros (Hmap & Hsrc & Htgt & Hempty). unfold accumulate.
  assert (⋃ (fst <$> pairs ++ [p]) = ⋃ (fst <$> pairs) ∪ p.1) as Hfst.
  { rewrite fmap_app, union_list_app_L. simpl. by rewrite (right_id_L ∅ (∪)). }
  assert (⋃ (snd <$> pairs ++ [p]) = ⋃ (snd <$> pairs) ∪ p.2) as Hsnd.
  { rewrite fmap_app, union_list_app_L. simpl. by rewrite (right_id_L ∅ (∪)). }
  split; [|split; [|split]]; cbn [teleport_map_ sources_ targets_ empty_set_].
  - intros s. rewrite set_fold_add_source, Hmap, Hfst, targets_from_snoc.
    clear Hmap Hsrc Htgt Hempty Hfst Hsnd.
    destruct (decide (s ∈ ⋃ (fst <$> pairs) ∪ p.1)) as [Hu|Hu];
      destruct (decide (s ∈ p.1)) as [Hin|Hout];
      destruct (decide (s ∈ ⋃ (fst <$> pairs))) as [Hold|Hnew];
      cbn [from_option];
      try (exfalso; apply Hu, elem_of_union; by auto);
      try (apply elem_of_union in Hu as [?|?]; done).
    + rewrite targets_from_absent by done. by rewrite (left_id_L ∅ (∪)).
    + by rewrite (right_id_L ∅ (∪)).
    + done.
  - by rewrite Hsrc, Hfst.
  - by rewrite Htgt, Hsnd.
  - done.
Qed.

Lemma survivors_cons (g : teleport_group attr) groups :
  surviving (g :: groups)
  = match surviving_locations filter_con gameboard u viewing_team
            see_all ignore_units check_vision g with
    | Some p => p :: surviving groups
    | None => surviving groups
    end.
Proof. reflexivity. Qed.

Lemma accumulated_foldl groups pairs tm :
  accumulated pairs tm →
  accumulated (pairs ++ surviving groups) (foldl step tm groups).
Proof.
  revert pairs tm. induction groups as [|g groups IH]; intros pairs tm Hacc.
  - simpl. by rewrite app_nil_r.
  - cbn [foldl]. rewrite survivors_cons. unfold teleport_map_step at 2.
    destruct (surviving_locations _ _ _ _ _ _ _ g) as [p|].
    + rewrite cons_middle, (assoc_L (++)).
      by apply IH, accumulated_accumulate.
    + by apply IH.
Qed.

(** The constructor's result, in terms of the surviving pairs. *)
Lemma accumulated_build groups : accumulated (surviving groups) (build groups).
Proof.
  apply (accumulated_foldl groups []). by repeat split.
Qed.

(** C5.  In the map built from a list of groups, the entry of a cell is the
    union of the surviving target sets of all groups whose surviving source
    set holds the cell: groups are united into the entry, a later one never
    overwrites an earlier one.  So when two groups survive with a common
    source cell, the cell has an entry that holds both target sets, and is
    their union when no third group shares the cell.  The aggregate source
    and target sets are the unions of all surviving source sets and of all
    surviving target sets. *)
Theorem teleport_map_unites_targets groups :
  (∀ s x, x ∈ get_adjacents (build groups) s
          ↔ ∃ p, p ∈ surviving groups ∧ s ∈ p.1 ∧ x ∈ p.2)
  ∧ (∀ s, s ∈ get_sources (build groups) →
          teleport_map_ (build groups) !! s
          = Some (targets_from s (surviving groups)))
  ∧ (∀ (i j : nat) (p1 p2 : teleport_pair) s,
       i ≠ j →
       surviving groups !! i = Some p1 →
       surviving groups !! j = Some p2 →
       s ∈ p1.1 → s ∈ p2.1 →
       ∃ V, teleport_map_ (build groups) !! s = Some V
            ∧ p1.2 ∪ p2.2 ⊆ V
            ∧ ((∀ (k : nat) (p : teleport_pair),
                  surviving groups !! k = Some p → s ∈ p.1 → k = i ∨ k = j) →
               V = p1.2 ∪ p2.2))
  ∧ get_sources (build groups) = ⋃ (fst <$> surviving groups)
  ∧ get_targets (build groups) = ⋃ (snd <$> surviving groups).
Proof.
  destruct (accumulated_build groups) as (Hmap & Hsrc & Htgt & Hempty).
  assert (∀ s (p : teleport_pair),
    p ∈ surviving groups → s ∈ p.1 → s ∈ ⋃ (fst <$> surviving groups)) as Hin.
  { intros s p Hp Hs. apply elem_of_union_list. exists p.1. split; [|done].
    apply list_elem_of_fmap. eauto. }
  split; [|split; [|split; [|done]]].
  - intros s x. unfold get_adjacents. rewrite Hmap, Hempty.
    destruct (decide (s ∈ ⋃ (fst <$> surviving groups))) as [Hs|Hs].
    + apply elem_of_targets_from.
    + split; [set_solver|]. intros (p & Hp & Hsp & _). exfalso. eauto.
  - intros s Hs. unfold get_sources in Hs. rewrite Hsrc in Hs.
    by rewrite Hmap, decide_True.
  - intros i j p1 p2 s Hij H1 H2 Hs1 Hs2.
    exists (targets_from s (surviving groups)).
    pose proof (list_elem_of_lookup_2 _ _ _ H1) as Hp1.
    pose proof (list_elem_of_lookup_2 _ _ _ H2) as Hp2.
    split; [rewrite Hmap, decide_True; eauto|]. split.
    + intros x [Hx|Hx]%elem_of_union; apply elem_of_targets_from; eauto.
    + intros Honly. apply set_eq. intros x.
      rewrite elem_of_targets_from, elem_of_union. split.
      * intros (p & (k & Hk)%list_elem_of_lookup_1 & Hs & Hx).
        destruct (Honly k p Hk Hs) as [-> | ->]; simplify_eq; auto.
      * intros [Hx|Hx]; eauto.
Qed.

(** C9.  The map built from no groups has empty aggregate sets and answers
    every lookup with its empty set.  In every built map, the set handed out
    for absent cells is empty, and a cell that is in no surviving source set
    has no entry: [get_adjacents] returns that empty set for it. *)
Theorem get_adjacents_absent_cell :
  (get_sources (build []) = ∅
   ∧ get_targets (build []) = ∅
   ∧ ∀ loc, get_adjacents (build []) loc = empty_set_ (build [])
            ∧ get_adjacents (build []) loc = ∅)
  ∧ ∀ groups loc,
      empty_set_ (build groups) = ∅
      ∧ ((∀ p : teleport_pair, p ∈ surviving groups → loc ∉ p.1) →
         teleport_map_ (build groups) !! loc = None
         ∧ get_adjacents (build groups) loc = empty_set_ (build groups))
      ∧ (loc ∉ get_sources (build groups) →
         get_adjacents (build groups) loc = empty_set_ (build groups)
         ∧ get_adjacents (build groups) loc = ∅).
Proof.
  split; [done|]. intros groups loc.
  destruct (accumulated_build groups) as (Hmap & Hsrc & Htgt & Hempty).
  split; [done|]. split.
  - intros Hnone.
    assert (loc ∉ ⋃ (fst <$> surviving groups)) as Hloc.
    { intros (X & (p & -> & Hp)%list_elem_of_fmap & Hx)%elem_of_union_list.
      by apply (Hnone p). }
    unfold get_adjacents. by rewrite Hmap, decide_False.
  - unfold get_sources. rewrite Hsrc. intros Hloc.
    unfold get_adjacents. by rewrite Hmap, decide_False.
Qed.
End accumulation.

(** * Worked examples on the sample world *)

Section examples.
Import sample.

(** Resolution: [g_a] leads from (1,1) to (5,5); with [ignore_units] the unit
    on (5,5) does not hide the target. *)
Example resolve_g_a :
  get_teleport_pair filter_con g_a (∅, ∅) (2 : Z) true = ({[ (1, 1) ]}, {[ (5, 5) ]}).
Proof. reflexivity. Qed.

Example resolve_g_a_reversed :
  get_teleport_pair filter_con g_a_reversed (∅, ∅) (2 : Z) true
  = ({[ (5, 5) ]}, {[ (1, 1) ]}).
Proof. reflexivity. Qed.

(** Fog: team 1 is an enemy of side 2 and does not see (5,5). *)
Example fog_hides_target :
  fog_narrowing (2 : Z) team1 false g_a ({[ (1, 1) ]}, {[ (5, 5) ]}) = ({[ (1, 1) ]}, ∅)
  ∧ fog_narrowing (2 : Z) team1 true g_a ({[ (1, 1) ]}, {[ (5, 5) ]})
    = ({[ (1, 1) ]}, {[ (5, 5) ]})
  ∧ fog_narrowing (3 : Z) team1 false g_a ({[ (1, 1) ]}, {[ (5, 5) ]})
    = ({[ (1, 1) ]}, {[ (5, 5) ]}).
Proof. repeat split. Qed.

(** Occupancy: the unit on (5,5) blocks the exit of [g_blocking] for an
    all-seeing observer; team 1 does not see it, so nothing is blocked. *)
Example occupied_target_blocked :
  occupancy_blocking board team1 true false false g_blocking
    ({[ (1, 1) ]}, {[ (5, 5); (6, 6) ]}) = ({[ (1, 1) ]}, {[ (6, 6) ]})
  ∧ occupancy_blocking board team1 false false false g_blocking
      ({[ (1, 1) ]}, {[ (5, 5); (6, 6) ]}) = ({[ (1, 1) ]}, {[ (5, 5); (6, 6) ]})
  ∧ occupancy_blocking board team1 true false false g_a
      ({[ (1, 1) ]}, {[ (5, 5); (6, 6) ]}) = ({[ (1, 1) ]}, {[ (5, 5); (6, 6) ]}).
Proof. repeat split. Qed.

(** Two groups leaving (1,1): one entry with both targets. *)
Example shared_source_entry :
  teleport_map_ (teleport_map_of filter_con board (2 : Z) team1 true true false [g_a; g_b])
  = {[ (1, 1) := {[ (5, 5); (6, 6) ]} ]}.
Proof. vm_compute. reflexivity. Qed.

(** Ids of a fresh manager. *)
Example three_ids :
  (run_calls [call_next_unique_id; call_add g_a; call_next_unique_id;
              call_remove "a"; call_next_unique_id] fresh).1 = ["1"; "2"; "3"].
Proof. reflexivity. Qed.

(** Removing "a" from the sample registry takes the reversed twin along. *)
Example remove_a :
  manager.get (manager.remove registry "a") = [g_b]
  ∧ manager.get (manager.remove registry "zzz") = manager.get registry.
Proof. split; reflexivity. Qed.
End examples.

(** * Instances of the theorems on the sample world *)

(** C6, as stated, fails for anonymous rule data: the forward group gets the
    id "1", its reversed twin the id "2", and removing "1" leaves the twin in
    the registry. *)
Lemma remove_anonymous_twin_survives :
  ∃ forward twin m1 m2,
    teleport_group_of_vconfig sample.anonymous false sample.fresh = Ok (forward, m1)
    ∧ teleport_group_of_vconfig sample.anonymous true (manager.add m1 forward)
      = Ok (twin, m2)
    ∧ reversed_ forward = false
    ∧ reversed_ twin = true
    ∧ get_teleport_id forward = "1"
    ∧ get_teleport_id twin = "2"
    ∧ manager.get (manager.add m2 twin) = [forward; twin]
    ∧ manager.get (manager.remove (manager.add m2 twin) (get_teleport_id forward))
      = [twin].
Proof. do 4 eexists. repeat split. Qed.

Lemma remove_named_tunnel_pair_witness :
  attr_empty (vconfig_get sample.named "id") = false
  ∧ teleport_group_of_vconfig sample.named false sample.fresh
    = Ok (sample.gate, sample.fresh)
  ∧ teleport_group_of_vconfig sample.named true (manager.add sample.fresh sample.gate)
    = Ok (sample.gate_reversed, manager.add sample.fresh sample.gate)
  ∧ get_teleport_id sample.gate_reversed
    = get_teleport_id sample.gate +:+ reversed_suffix
  ∧ (sample.gate ∉ manager.get (manager.remove sample.gate_registry "gate"))
  ∧ (sample.gate_reversed ∉ manager.get (manager.remove sample.gate_registry "gate")).
Proof.
  do 3 (split; [reflexivity|]).
  destruct (remove_named_tunnel_pair (attr:=string)) as (_ & Hpair & _).
  destruct (Hpair sample.named sample.fresh (manager.add sample.fresh sample.gate)
              sample.gate sample.gate_reversed sample.fresh
              (manager.add sample.fresh sample.gate) sample.gate_registry
              eq_refl eq_refl eq_refl
              (list_elem_of_here _ _)
              (list_elem_of_further _ _ _ (list_elem_of_here _ _)))
    as (_ & _ & Hid & Hforward & Htwin & _).
  repeat split; assumption.
Defined.

Lemma manager_round_trip_witness :
  Forall well_formed (manager.get sample.registry)
  ∧ ∃ m',
      manager.of_config (manager.to_config sample.registry) = Ok m'
      ∧ get_teleport_id <$> manager.get m' = ["a"; "a-__REVERSED__"; "b"]
      ∧ reversed_ <$> manager.get m' = [false; true; false]
      ∧ manager.id_ m' = int_of 3.
Proof.
  assert (Forall well_formed (manager.get sample.registry)) as Hwf
    by (repeat constructor).
  split; [exact Hwf|].
  destruct (manager_round_trip sample.registry Hwf)
    as (m' & Hload & Hids & Hrev & Hcount & _).
  exists m'. repeat split; assumption.
Defined.

Lemma anonymous_group_gets_counter_id_witness :
  child_count (get_config sample.anonymous) "source" = 1%nat
  ∧ child_count (get_config sample.anonymous) "target" = 1%nat
  ∧ child_count (get_config sample.anonymous) "filter" = 1%nat
  ∧ attr_empty (vconfig_get sample.anonymous "id") = true
  ∧ ∀ reversed,
      teleport_group_of_vconfig sample.anonymous reversed sample.registry
      = Ok ({| cfg_ := get_config sample.anonymous; reversed_ := reversed;
               id_ := "4" |},
            {| manager.tunnels_ := manager.tunnels_ sample.registry;
               manager.id_ := int_of 4 |}).
Proof.
  do 4 (split; [reflexivity|]).
  apply (anonymous_group_gets_counter_id sample.anonymous sample.registry
           eq_refl eq_refl eq_refl).
  reflexivity.
Defined.

Lemma get_teleport_pair_unmatched_witness :
  unit_filter_matches sample.filter_con
    (child_or_empty (cfg_ sample.g_side7) "filter") (2 : Z) = false
  ∧ get_teleport_pair sample.filter_con sample.g_side7 (∅, ∅) (2 : Z) false = (∅, ∅)
  ∧ get_teleport_pair sample.filter_con sample.g_side7 (∅, ∅) (7 : Z) false
    = ({[ (2, 2) ]}, {[ (3, 3) ]}).
Proof.
  split; [reflexivity|]. split; [|reflexivity].
  apply (get_teleport_pair_unmatched sample.filter_con sample.g_side7 (2 : Z) false).
  reflexivity.
Defined.

Lemma get_teleport_pair_reversed_swaps_witness :
  reversed_ sample.g_a_reversed = negb (reversed_ sample.g_a)
  ∧ (get_teleport_pair sample.filter_con sample.g_a (∅, ∅) (2 : Z) true).1
    = (get_teleport_pair sample.filter_con sample.g_a_reversed (∅, ∅) (2 : Z) true).2
  ∧ (get_teleport_pair sample.filter_con sample.g_a (∅, ∅) (2 : Z) true).2
    = (get_teleport_pair sample.filter_con sample.g_a_reversed (∅, ∅) (2 : Z) true).1.
Proof.
  split; [reflexivity|].
  apply (get_teleport_pair_reversed_swaps sample.filter_con
           sample.g_a sample.g_a_reversed (2 : Z) true); reflexivity.
Defined.

(** C8, as stated, fails once the 32-bit counter overflows.  A manager whose
    counter is 2147483647 issues "-2147483648".  Counted from the manager
    built from empty rule data, that is the 2147483648th id, where the claim
    expects "2147483648": the first 2147483648 ids are not "1".."2147483648".
    And among 2^32 + 1 ids issued in a row the first comes back. *)
Lemma next_unique_id_wraps_around :
  (manager.next_unique_id
     {| manager.tunnels_ := [] : list (teleport_group string);
        manager.id_ := int_of 2147483647 |}).1 = "-2147483648"
  ∧ manager.of_config (attr:=string) config_empty = Ok sample.fresh
  ∧ (run_calls (replicate (Z.to_nat 2147483648) call_next_unique_id) sample.fresh).1
      !! Z.to_nat 2147483647 = Some "-2147483648"
  ∧ (run_calls (replicate (Z.to_nat 2147483648) call_next_unique_id) sample.fresh).1
    ≠ (λ k : nat, to_string (Z.of_nat k)) <$> seq 1 (Z.to_nat 2147483648)
  ∧ ¬ NoDup (run_calls (replicate (Z.to_nat 4294967297) call_next_unique_id)
               sample.fresh).1.
Proof.
  assert ((run_calls (replicate (Z.to_nat 2147483648) call_next_unique_id)
             sample.fresh).1 !! Z.to_nat 2147483647 = Some "-2147483648") as Hlast.
  { rewrite run_calls_replicate_lookup by lia.
    rewrite Z2Nat.id by lia. reflexivity. }
  split; [reflexivity|]. split; [reflexivity|]. split; [exact Hlast|]. split.
  - intros Heq. rewrite Heq, list_lookup_fmap, lookup_seq_lt in Hlast by lia.
    cbn [fmap option_fmap option_map] in Hlast.
    rewrite Nat2Z.inj_add, Z2Nat.id in Hlast by lia. discriminate Hlast.
  - intros Hnodup.
    assert (Z.to_nat 4294967296 = 0%nat) as Hsame; [|lia].
    eapply NoDup_lookup; [exact Hnodup| |].
    + rewrite run_calls_replicate_lookup by lia.
      rewrite Z2Nat.id by lia. reflexivity.
    + rewrite run_calls_replicate_lookup by lia. reflexivity.
Qed.

Lemma next_unique_id_issues_1_to_N_witness :
  manager.of_config (attr:=string) config_empty = Ok sample.fresh
  ∧ (run_calls (replicate 3 call_next_unique_id) sample.fresh).1 = ["1"; "2"; "3"]
  ∧ NoDup (run_calls (replicate 3 call_next_unique_id) sample.registry).1.
Proof.
  destruct (next_unique_id_issues_1_to_N (attr:=string))
    as (_ & (fresh & Hfresh & _ & Hseq & _) & Hnodup).
  split; [reflexivity|]. split.
  - assert (fresh = sample.fresh) as -> by (by injection Hfresh).
    apply (Hseq 3%nat). by vm_compute.
  - apply Hnodup. by vm_compute.
Defined.

Lemma fog_narrowing_monotonic_witness :
  always_visible sample.g_a = false
  ∧ is_enemy sample.team1 (side (2 : Z)) = true
  ∧ fogged sample.team1 (5, 5) = true
  ∧ ((5, 5) ∉ (fog_narrowing (2 : Z) sample.team1 false sample.g_a
                 ({[ (1, 1) ]}, {[ (5, 5) ]})).2)
  ∧ (1, 1) ∈ (fog_narrowing (2 : Z) sample.team1 false sample.g_a
                ({[ (1, 1) ]}, {[ (5, 5) ]})).1.
Proof.
  do 3 (split; [reflexivity|]).
  destruct (fog_narrowing_monotonic (sim:=sample.simulation) (2 : Z) sample.team1 sample.g_a
              ({[ (1, 1) ]}, {[ (5, 5) ]})) as (_ & _ & _ & _ & _ & Hruns).
  specialize (Hruns false eq_refl eq_refl eq_refl). split.
  - intros Hin. apply (Hruns (5, 5)) in Hin as [_ Hfog]. discriminate Hfog.
  - apply (Hruns (1, 1)). split; [|reflexivity]. by apply elem_of_singleton.
Defined.

Lemma occupancy_blocking_targets_only_witness :
  pass_allied_units sample.g_blocking = false
  ∧ units sample.board !! (5, 5) = Some (2 : Z)
  ∧ ((5, 5) ∉ (occupancy_blocking sample.board sample.team1 true false false
                 sample.g_blocking ({[ (1, 1) ]}, {[ (5, 5); (6, 6) ]})).2)
  ∧ (occupancy_blocking sample.board sample.team1 true false false
       sample.g_blocking ({[ (1, 1) ]}, {[ (5, 5); (6, 6) ]})).1 = {[ (1, 1) ]}
  ∧ occupancy_blocking sample.board sample.team1 true true false
      sample.g_blocking ({[ (1, 1) ]}, {[ (5, 5); (6, 6) ]})
    = ({[ (1, 1) ]}, {[ (5, 5); (6, 6) ]}).
Proof.
  do 2 (split; [reflexivity|]).
  destruct (occupancy_blocking_targets_only (sim:=sample.simulation) sample.board sample.team1
              true false false sample.g_blocking
              ({[ (1, 1) ]}, {[ (5, 5); (6, 6) ]})) as (Hsrc & _ & _ & Hruns).
  destruct (occupancy_blocking_targets_only (sim:=sample.simulation) sample.board sample.team1
              true true false sample.g_blocking
              ({[ (1, 1) ]}, {[ (5, 5); (6, 6) ]})) as (_ & _ & Hskip & _).
  split; [|split].
  - intros Hin. apply (Hruns eq_refl eq_refl eq_refl) in Hin as [_ Hnone].
    discriminate Hnone.
  - exact Hsrc.
  - apply Hskip. by left.
Defined.

Lemma teleport_map_unites_targets_witness :
  survivors sample.filter_con sample.board (2 : Z) sample.team1 true true false
    [sample.g_a; sample.g_b]
  = [({[ (1, 1) ]}, {[ (5, 5) ]}); ({[ (1, 1) ]}, {[ (6, 6) ]})]
  ∧ ∃ V,
      teleport_map_
        (teleport_map_of sample.filter_con sample.board (2 : Z) sample.team1
           true true false [sample.g_a; sample.g_b]) !! (1, 1) = Some V
      ∧ V = {[ (5, 5) ]} ∪ {[ (6, 6) ]}.
Proof.
  split; [reflexivity|].
  destruct (teleport_map_unites_targets (sim:=sample.simulation) sample.filter_con sample.board (2 : Z)
              sample.team1 true true false [sample.g_a; sample.g_b])
    as (_ & _ & Htwo & _).
  destruct (Htwo 0%nat 1%nat ({[ (1, 1) ]}, {[ (5, 5) ]})
              ({[ (1, 1) ]}, {[ (6, 6) ]}) (1, 1))
    as (V & Hentry & _ & Hunion).
  - discriminate.
  - reflexivity.
  - reflexivity.
  - by apply elem_of_singleton.
  - by apply elem_of_singleton.
  - exists V. split; [exact Hentry|]. apply Hunion.
    intros [|[|k]] p Hk _; [by left|by right|discriminate Hk].
Defined.

Lemma get_adjacents_absent_cell_witness :
  ((9, 9) ∉ get_sources
              (teleport_map_of sample.filter_con sample.board (2 : Z) sample.team1
                 true true false [sample.g_a; sample.g_b]))
  ∧ get_adjacents
      (teleport_map_of sample.filter_con sample.board (2 : Z) sample.team1
         true true false [sample.g_a; sample.g_b]) (9, 9) = ∅.
Proof.
  assert ((9, 9) ∉ get_sources
            (teleport_map_of sample.filter_con sample.board (2 : Z) sample.team1
               true true false [sample.g_a; sample.g_b])) as Habsent.
  { intros Hin. apply elem_of_elements in Hin. vm_compute in Hin.
    apply list_elem_of_singleton in Hin. discriminate Hin. }
  split; [exact Habsent|].
  destruct (get_adjacents_absent_cell (sim:=sample.simulation) sample.filter_con sample.board (2 : Z)
              sample.team1 true true false) as (_ & Hany).
  destruct (Hany [sample.g_a; sample.g_b] (9, 9)) as (_ & _ & Hlookup).
  by destruct (Hlookup Habsent).
Defined.

(** * Further properties of the groups and of the manager *)

Section group_construction.
Context {attr : Type} `{!AttributeValue attr}.
Implicit Types (m : manager.t attr) (g : teleport_group attr) (cfg : config attr).

Lemma one_child_throw cfg key :
  child_count cfg key ≠ 1%nat →
  one_child cfg key
  = Throw (wml_exception ("The tunnel should have only one '" +:+ key +:+ "' child.")).
Proof.
  intros Hc. unfold one_child, VALIDATE. by rewrite bool_decide_eq_false_2.
Qed.

Lemma teleport_group_of_config_ok cfg :
  loadable cfg → teleport_group_of_config cfg = Ok (group_of_record cfg).
Proof.
  intros (Hid & Hrev & Hs & Ht & Hf). unfold teleport_group_of_config.
  rewrite Hid, Hrev, !one_child_ok by done. reflexivity.
Qed.

Lemma teleport_group_of_config_inv cfg g :
  teleport_group_of_config cfg = Ok g → loadable cfg.
Proof.
  unfold teleport_group_of_config, loadable.
  destruct (has_attribute cfg "id"); [|discriminate].
  destruct (has_attribute cfg "reversed"); [|discriminate].
  cbn [VALIDATE mbind result_bind].
  destruct (one_child cfg "source") as [[]|] eqn:Hs; [|discriminate].
  destruct (one_child cfg "target") as [[]|] eqn:Ht; [|discriminate].
  destruct (one_child cfg "filter") as [[]|] eqn:Hf; [|discriminate].
  intros _. repeat split; eauto using one_child_inv.
Qed.

(** X1.  The save-game constructor accepts a record exactly when it has the
    `id` and `reversed` keys and one `source`, one `target` and one `filter`
    child.  The group it builds keeps the record as its rule data, reads its
    direction from `reversed` and its id from `id`, and satisfies the
    structural invariant. *)
Theorem teleport_group_of_config_accepts cfg :
  (loadable cfg → teleport_group_of_config cfg = Ok (group_of_record cfg))
  ∧ (∀ g, teleport_group_of_config cfg = Ok g →
          loadable cfg
          ∧ cfg_ g = cfg
          ∧ reversed_ g = to_bool (config_get cfg "reversed") false
          ∧ get_teleport_id g = attr_str (config_get cfg "id")
          ∧ well_formed g).
Proof.
  split; [apply teleport_group_of_config_ok|].
  intros g Hok. pose proof (teleport_group_of_config_inv _ _ Hok) as Hload.
  rewrite teleport_group_of_config_ok in Hok by done. injection Hok as <-.
  destruct Hload as (? & ? & ? & ? & ?). repeat split; done.
Qed.

(** X2.  The checks of the save-game constructor run in a fixed order, and
    the first one that fails decides the exception: a missing `id`, then a
    missing `reversed`, then the number of `source`, of `target` and of
    `filter` children. *)
Theorem teleport_group_of_config_rejects cfg :
  (has_attribute cfg "id" = false →
   teleport_group_of_config cfg = Throw (missing_mandatory_wml_key "tunnel" "id"))
  ∧ (has_attribute cfg "id" = true → has_attribute cfg "reversed" = false →
     teleport_group_of_config cfg
     = Throw (missing_mandatory_wml_key "tunnel" "reversed"))
  ∧ (has_attribute cfg "id" = true → has_attribute cfg "reversed" = true →
     child_count cfg "source" ≠ 1%nat →
     teleport_group_of_config cfg
     = Throw (wml_exception "The tunnel should have only one 'source' child."))
  ∧ (has_attribute cfg "id" = true → has_attribute cfg "reversed" = true →
     child_count cfg "source" = 1%nat → child_count cfg "target" ≠ 1%nat →
     teleport_group_of_config cfg
     = Throw (wml_exception "The tunnel should have only one 'target' child."))
  ∧ (has_attribute cfg "id" = true → has_attribute cfg "reversed" = true →
     child_count cfg "source" = 1%nat → child_count cfg "target" = 1%nat →
     child_count cfg "filter" ≠ 1%nat →
     teleport_group_of_config cfg
     = Throw (wml_exception "The tunnel should have only one 'filter' child.")).
Proof.
  unfold teleport_group_of_config. split; [|split; [|split; [|split]]].
  - by intros ->.
  - by intros -> ->.
  - intros -> -> Hs. by rewrite (one_child_throw _ _ Hs).
  - intros -> -> Hs Ht.
    by rewrite (one_child_ok _ _ Hs), (one_child_throw _ _ Ht).
  - intros -> -> Hs Ht Hf.
    by rewrite (one_child_ok _ _ Hs), (one_child_ok _ _ Ht), (one_child_throw _ _ Hf).
Qed.

(** X3.  The constructor from authored rule data succeeds exactly when the
    rule data has one `source`, one `target` and one `filter` child.  The
    group keeps the rule data and the requested direction and satisfies the
    structural invariant; the registry's groups are not touched, and the
    counter is incremented (in 32-bit arithmetic) when the `id` is empty and
    stays otherwise.  A wrong number of `source` children is reported by the
    exception for `source`. *)
Theorem teleport_group_of_vconfig_effect (cfg : vconfig attr) (reversed : bool) m :
  ((∃ g m', teleport_group_of_vconfig cfg reversed m = Ok (g, m'))
   ↔ (child_count (get_config cfg) "source" = 1%nat
      ∧ child_count (get_config cfg) "target" = 1%nat
      ∧ child_count (get_config cfg) "filter" = 1%nat))
  ∧ (∀ g m', teleport_group_of_vconfig cfg reversed m = Ok (g, m') →
       cfg_ g = get_config cfg
       ∧ reversed_ g = reversed
       ∧ well_formed g
       ∧ manager.get m' = manager.get m
       ∧ manager.id_ m'
         = (if attr_empty (vconfig_get cfg "id") then int_succ (manager.id_ m)
            else manager.id_ m))
  ∧ (child_count (get_config cfg) "source" ≠ 1%nat →
     teleport_group_of_vconfig cfg reversed m
     = Throw (wml_exception "The tunnel should have only one 'source' child.")).
Proof.
  split; [|split].
  - split.
    + intros (g & m' & Hok). by eapply teleport_group_of_vconfig_inv.
    + intros (Hs & Ht & Hf). rewrite teleport_group_of_vconfig_ok by done.
      destruct (attr_empty _); eauto.
  - intros g m' Hok.
    pose proof (teleport_group_of_vconfig_inv _ _ _ _ _ Hok) as (Hs & Ht & Hf).
    rewrite teleport_group_of_vconfig_ok in Hok by done.
    destruct (attr_empty _); injection Hok as <- <-;
      cbn [cfg_ reversed_ manager.get manager.tunnels_ manager.id_];
      repeat split; done.
  - intros Hs. unfold teleport_group_of_vconfig.
    by rewrite (one_child_throw _ _ Hs).
Qed.

(** X4.  Neither check of uniqueness nor reservation of numerals: a named
    tunnel whose `id` is the decimal of the next counter value gets the very
    id the next anonymous tunnel is issued, and removing by that id erases
    both groups. *)
Theorem numeric_name_meets_counter_id (named anonymous : vconfig attr) m g1 m1 g2 m2 :
  attr_empty (vconfig_get named "id") = false →
  attr_str (vconfig_get named "id")
  = to_string (int_val (int_succ (manager.id_ m))) →
  attr_empty (vconfig_get anonymous "id") = true →
  teleport_group_of_vconfig named false m = Ok (g1, m1) →
  teleport_group_of_vconfig anonymous false (manager.add m1 g1) = Ok (g2, m2) →
  get_teleport_id g1 = get_teleport_id g2
  ∧ manager.get (manager.add m2 g2) = manager.get m ++ [g1; g2]
  ∧ manager.get (manager.remove (manager.add m2 g2) (get_teleport_id g2))
    = manager.get (manager.remove m (get_teleport_id g2)).
Proof.
  intros Hnamed Htext Hanon Hok1 Hok2.
  pose proof (teleport_group_of_vconfig_inv _ _ _ _ _ Hok1) as (? & ? & ?).
  pose proof (teleport_group_of_vconfig_inv _ _ _ _ _ Hok2) as (? & ? & ?).
  rewrite teleport_group_of_vconfig_ok, Hnamed in Hok1 by done.
  injection Hok1 as <- <-.
  rewrite teleport_group_of_vconfig_ok, Hanon in Hok2 by done.
  injection Hok2 as <- <-.
  unfold get_teleport_id, manager.get, manager.add, manager.remove.
  cbn [id_ manager.tunnels_ manager.id_]. rewrite Htext.
  split; [done|]. split; [by rewrite <- app_assoc|].
  rewrite !remove_loop_filter, !filter_app.
  rewrite !filter_cons_False, !filter_nil, !app_nil_r; [done| |];
    intros Hkeep; apply Hkeep; by left.
Qed.
End group_construction.

Section manager_laws.
Context {attr : Type} `{!AttributeValue attr}.
Implicit Types (m : manager.t attr) (g : teleport_group attr) (cfg : config attr).

Lemma manager_eq m1 m2 :
  manager.tunnels_ m1 = manager.tunnels_ m2 → manager.id_ m1 = manager.id_ m2 →
  m1 = m2.
Proof. destruct m1, m2. cbn. by intros -> ->. Qed.

(** X5.  Removal by id only ever takes groups away and keeps the order of the
    rest; doing it twice changes nothing more, and removals by two ids can be
    done in either order. *)
Theorem remove_laws m (a b : string) :
  manager.get (manager.remove m a) `sublist_of` manager.get m
  ∧ manager.remove (manager.remove m a) a = manager.remove m a
  ∧ manager.remove (manager.remove m a) b = manager.remove (manager.remove m b) a.
Proof.
  unfold manager.get, manager.remove. cbn [manager.tunnels_ manager.id_].
  rewrite !remove_loop_filter. split; [apply sublist_filter|]. split.
  - f_equal. by apply list_filter_filter_l.
  - f_equal. rewrite !list_filter_filter. apply list_filter_iff. tauto.
Qed.

(** X6.  Removal after registration: removing an id that selects the group
    just added undoes the addition (and removes what else the id selects);
    removing any other id commutes with the addition. *)
Theorem remove_after_add m g (id : string) :
  (selected_by id g →
   manager.remove (manager.add m g) id = manager.remove m id)
  ∧ (¬ selected_by id g →
     manager.remove (manager.add m g) id = manager.add (manager.remove m id) g)
  ∧ manager.remove (manager.add m g) (get_teleport_id g)
    = manager.remove m (get_teleport_id g).
Proof.
  assert (selected_by id g →
          manager.remove (manager.add m g) id = manager.remove m id) as Hsel.
  { intros Hyes. apply manager_eq; [|done].
    unfold manager.remove, manager.add. cbn [manager.tunnels_].
    rewrite !remove_loop_filter, filter_app, filter_cons_False by tauto.
    by rewrite filter_nil, app_nil_r. }
  split; [done|]. split.
  - intros Hno. apply manager_eq; [|done].
    unfold manager.remove, manager.add. cbn [manager.tunnels_].
    rewrite !remove_loop_filter, filter_app, filter_cons_True by done.
    by rewrite filter_nil.
  - clear Hsel. apply manager_eq; [|done].
    unfold manager.remove, manager.add. cbn [manager.tunnels_].
    rewrite !remove_loop_filter, filter_app, filter_cons_False.
    + by rewrite filter_nil, app_nil_r.
    + intros Hkeep. apply Hkeep. by left.
Qed.

(** The indexed loop of the manager's constructor, over the records it
    visits: unsaved records are passed over, saved ones are loaded. *)
Lemma load_tunnels_records cfg (pre suf : list (config attr)) m :
  child_range cfg "tunnel" = pre ++ suf →
  Forall (λ t, saved t → loadable t) suf →
  manager.load_tunnels cfg m (seq (length pre) (length suf))
  = Ok {| manager.tunnels_ :=
            manager.tunnels_ m ++ (group_of_record <$> filter saved suf);
          manager.id_ := manager.id_ m |}.
Proof.
  intros Hrange. revert pre m Hrange.
  induction suf as [|t suf IH]; intros pre m Hrange Hok.
  - simpl. rewrite app_nil_r. by destruct m.
  - apply Forall_cons in Hok as [Ht Hsuf].
    cbn [length seq manager.load_tunnels].
    unfold manager.load_tunnel at 1, mandatory_child.
    rewrite Hrange, list_lookup_middle by done.
    cbn [mbind result_bind].
    specialize (IH (pre ++ [t])).
    rewrite length_app in IH. cbn [length] in IH.
    replace (length pre + 1)%nat with (S (length pre)) in IH by lia.
    destruct (decide (saved t)) as [Hsaved|Hraw].
    + rewrite Hsaved. cbn [negb].
      rewrite teleport_group_of_config_ok by auto.
      cbn [mbind result_bind mret result_ret].
      rewrite (IH (manager.add m (group_of_record t)));
        [|by rewrite <- app_assoc|done].
      rewrite filter_cons_True by done.
      unfold manager.add. cbn [manager.tunnels_ manager.id_].
      by rewrite <- app_assoc.
    + unfold saved in Hraw. apply not_true_is_false in Hraw. rewrite Hraw.
      cbn [negb mret result_ret mbind result_bind].
      rewrite (IH m); [|by rewrite <- app_assoc|done].
      rewrite filter_cons_False; [done|].
      unfold saved. by rewrite Hraw.
Qed.

(** The loop stops at the first saved record the group constructor
    rejects. *)
Lemma load_tunnels_rejects cfg (pre good rest : list (config attr)) bad e m :
  child_range cfg "tunnel" = pre ++ good ++ bad :: rest →
  Forall (λ t, saved t → loadable t) good →
  saved bad →
  teleport_group_of_config bad = Throw e →
  manager.load_tunnels cfg m (seq (length pre) (length (good ++ bad :: rest)))
  = Throw e.
Proof.
  intros Hrange. revert pre m Hrange.
  induction good as [|t good IH]; intros pre m Hrange Hgood Hsaved Hbad.
  - cbn [app length seq manager.load_tunnels].
    unfold manager.load_tunnel, mandatory_child.
    rewrite Hrange. cbn [app]. rewrite list_lookup_middle by done.
    cbn [mbind result_bind]. rewrite Hsaved. cbn [negb]. by rewrite Hbad.
  - apply Forall_cons in Hgood as [Ht Hgood].
    cbn [app length seq manager.load_tunnels].
    unfold manager.load_tunnel at 1, mandatory_child.
    rewrite Hrange. cbn [app]. rewrite list_lookup_middle by done.
    cbn [mbind result_bind].
    specialize (IH (pre ++ [t])).
    rewrite length_app in IH. cbn [length] in IH.
    replace (length pre + 1)%nat with (S (length pre)) in IH by lia.
    destruct (decide (saved t)) as [Hyes|Hraw].
    + rewrite Hyes. cbn [negb].
      rewrite teleport_group_of_config_ok by auto.
      cbn [mbind result_bind mret result_ret].
      apply IH; [by rewrite <- app_assoc|done..].
    + unfold saved in Hraw. apply not_true_is_false in Hraw. rewrite Hraw.
      cbn [negb mret result_ret].
      apply IH; [by rewrite <- app_assoc|done..].
Qed.

(** X7.  The manager's constructor reads the counter from
    `next_teleport_group_id` (0 when absent) and walks the `tunnel` records in
    order.  Records without the `saved` marker are passed over and never make
    the load fail; the saved ones become the registry, in order.  The load
    fails only at a saved record the group constructor rejects, with that
    record's exception. *)
Theorem of_config_loads_saved_records cfg :
  (Forall (λ t, saved t → loadable t) (child_range cfg "tunnel") →
   manager.of_config cfg
   = Ok {| manager.tunnels_ :=
             group_of_record <$> filter saved (child_range cfg "tunnel");
           manager.id_ := to_int (config_get cfg "next_teleport_group_id") (int_of 0) |})
  ∧ (Forall (λ t, ¬ saved t) (child_range cfg "tunnel") →
     manager.of_config cfg
     = Ok {| manager.tunnels_ := [];
             manager.id_ := to_int (config_get cfg "next_teleport_group_id") (int_of 0) |})
  ∧ (∀ good bad rest e,
       child_range cfg "tunnel" = good ++ bad :: rest →
       Forall (λ t, saved t → loadable t) good →
       saved bad →
       teleport_group_of_config bad = Throw e →
       manager.of_config cfg = Throw e)
  ∧ (values cfg !! "next_teleport_group_id" = None →
     ∀ m', manager.of_config cfg = Ok m' → manager.id_ m' = int_of 0).
Proof.
  assert (Forall (λ t, saved t → loadable t) (child_range cfg "tunnel") →
    manager.of_config cfg
    = Ok {| manager.tunnels_ :=
              group_of_record <$> filter saved (child_range cfg "tunnel");
            manager.id_ := to_int (config_get cfg "next_teleport_group_id") (int_of 0) |})
    as Hload.
  { intros Hok. unfold manager.of_config, child_count.
    by rewrite (load_tunnels_records cfg [] (child_range cfg "tunnel")). }
  split; [done|]. split; [|split].
  - intros Hraw. rewrite Hload.
    + do 2 f_equal. revert Hraw. generalize (child_range cfg "tunnel").
      induction 1 as [|t ts Ht _ IH]; [done|].
      rewrite filter_cons_False by done. exact IH.
    + eapply Forall_impl; [exact Hraw|]. intros t Ht Hs. done.
  - intros good bad rest e Hrange Hgood Hsaved Hbad.
    unfold manager.of_config, child_count. rewrite Hrange.
    by apply (load_tunnels_rejects cfg [] good rest bad e).
  - intros Hnone m' Hok. unfold manager.of_config in Hok.
    assert (∀ idxs m0 m1, manager.load_tunnels cfg m0 idxs = Ok m1 →
                          manager.id_ m1 = manager.id_ m0) as Hcount.
    { induction idxs as [|i idxs IH]; intros m0 m1; cbn [manager.load_tunnels].
      - by intros [= ->].
      - unfold manager.load_tunnel at 1.
        destruct (mandatory_child cfg "tunnel" i) as [t|]; [|discriminate].
        cbn [mbind result_bind].
        destruct (negb _); cbn [mret result_ret].
        + apply IH.
        + destruct (teleport_group_of_config t) as [g|]; [|discriminate].
          cbn [mbind result_bind]. intros Hrec. by apply IH in Hrec. }
    apply Hcount in Hok. rewrite Hok. cbn [manager.id_].
    unfold config_get. rewrite Hnone. apply to_int_blank.
Qed.

(** The registry a saved manager comes back as. *)
Lemma of_config_to_config m :
  Forall well_formed (manager.get m) →
  manager.of_config (manager.to_config m)
  = Ok {| manager.tunnels_ := reload <$> manager.tunnels_ m;
          manager.id_ := manager.id_ m |}.
Proof.
  intros Hwf. unfold manager.of_config, child_count.
  rewrite to_config_tunnels, length_fmap, to_config_counter.
  by rewrite (load_tunnels_saved _ [] (manager.tunnels_ m));
    [|apply to_config_tunnels|done].
Qed.

(** Saving a group that came back from a save writes the same record. *)
Lemma to_config_reload g :
  teleport_group_to_config (reload g) = teleport_group_to_config g.
Proof.
  unfold teleport_group_to_config, reload, config_set.
  cbn [cfg_ reversed_ id_ values children]. f_equal.
  apply map_eq. intros key. rewrite !lookup_insert.
  repeat case_decide; try done.
  unfold teleport_group_to_config, config_set. cbn [values].
  by rewrite !lookup_insert_ne.
Qed.

(** X8.  Saving is stable under reloading: the manager constructed from a
    saved manager serialises to the very same rule data. *)
Theorem to_config_stable m :
  Forall well_formed (manager.get m) →
  ∃ m', manager.of_config (manager.to_config m) = Ok m'
        ∧ manager.to_config m' = manager.to_config m
        ∧ Forall well_formed (manager.get m').
Proof.
  intros Hwf. eexists. split; [by apply of_config_to_config|]. split.
  - unfold manager.to_config. cbn [manager.tunnels_ manager.id_]. f_equal.
    generalize (config_empty (attr:=attr)).
    induction (manager.tunnels_ m) as [|g ts IH]; intros store; [done|].
    cbn [fmap list_fmap foldl]. fold (fmap (M:=list) reload ts).
    rewrite to_config_reload. apply IH.
  - unfold manager.get in *. cbn [manager.tunnels_].
    apply Forall_fmap. eapply Forall_impl; [exact Hwf|]. by intros g Hg.
Qed.

(** X9.  Ids stay unique across a save: as long as no more than 2^32 ids
    are issued in all, the ids issued after reloading a saved manager differ
    from each other and from every id the manager had issued before it was
    saved. *)
Theorem ids_unique_across_reload m
    (before after : list (manager_call (attr:=attr))) :
  Forall well_formed (manager.get (run_calls before m).2) →
  Z.of_nat (issued before + issued after) ≤ 4294967296 →
  ∃ m', manager.of_config (manager.to_config (run_calls before m).2) = Ok m'
        ∧ NoDup ((run_calls before m).1 ++ (run_calls after m').1).
Proof.
  intros Hwf Hbound. eexists. split; [by apply of_config_to_config|].
  destruct (run_calls_ids before m) as [Hids1 Hcount].
  match goal with |- NoDup (_ ++ (run_calls after ?m').1) =>
    destruct (run_calls_ids after m') as [Hids2 _] end.
  cbn [manager.id_] in Hids2. rewrite Hids1, Hids2, Hcount.
  apply NoDup_app. split; [|split].
  - apply NoDup_fmap_2_strong; [|apply NoDup_seq].
    intros j k Hj%elem_of_seq Hk%elem_of_seq Heq.
    apply to_string_inj, int_eq, int_add_window in Heq; lia.
  - intros id (j & -> & Hj)%list_elem_of_fmap (k & Heq & Hk)%list_elem_of_fmap.
    apply elem_of_seq in Hj, Hk. rewrite int_add_add in Heq.
    apply to_string_inj, int_eq, int_add_window in Heq; lia.
  - apply NoDup_fmap_2_strong; [|apply NoDup_seq].
    intros j k Hj%elem_of_seq Hk%elem_of_seq Heq. rewrite !int_add_add in Heq.
    apply to_string_inj, int_eq, int_add_window in Heq; lia.
Qed.

End manager_laws.

(** * Further properties of the adjacency map *)

Section map_laws.
Context {attr : Type} `{!AttributeValue attr} {sim : Simulation} `{!FilterEngine attr}.
Variable filter_con : filter_context.
Variable gameboard : game_board.
Variable u : unit.
Variable viewing_team : team.
Variables see_all ignore_units check_vision : bool.
Implicit Types (tm : teleport_map) (groups : list (teleport_group attr)).
Implicit Types (g : teleport_group attr) (p : teleport_pair).
Implicit Types (pairs : list teleport_pair) (s loc : Z * Z).

Local Abbreviation build :=
  (teleport_map_of filter_con gameboard u viewing_team see_all ignore_units check_vision).
Local Abbreviation surviving :=
  (survivors filter_con gameboard u viewing_team see_all ignore_units check_vision).
Local Abbreviation survive :=
  (surviving_locations filter_con gameboard u viewing_team
     see_all ignore_units check_vision).
Local Abbreviation resolve g :=
  (get_teleport_pair filter_con g (∅, ∅) u ignore_units).

(** A map is determined by the surviving pairs it accumulates. *)
Lemma accumulated_eq pairs tm1 tm2 :
  accumulated pairs tm1 → accumulated pairs tm2 → tm1 = tm2.
Proof.
  intros (Hm1 & Hs1 & Ht1 & He1) (Hm2 & Hs2 & Ht2 & He2).
  destruct tm1 as [m1 s1 t1 e1], tm2 as [m2 s2 t2 e2].
  cbn [teleport_map_ sources_ targets_ empty_set_] in *. subst. f_equal.
  apply map_eq. intros s. by rewrite Hm1, Hm2.
Qed.

(** Only the cells the pairs relate matter, not how the pairs are listed. *)
Lemma accumulated_transfer pairs pairs' tm :
  ⋃ (fst <$> pairs) = ⋃ (fst <$> pairs') →
  ⋃ (snd <$> pairs) = ⋃ (snd <$> pairs') →
  (∀ s, targets_from s pairs = targets_from s pairs') →
  accumulated pairs tm → accumulated pairs' tm.
Proof.
  intros Hfst Hsnd Hfrom (Hm & Hs & Ht & He). unfold accumulated.
  rewrite <- Hfst, <- Hsnd. split; [|done].
  intros s. by rewrite <- Hfrom.
Qed.

Lemma elem_of_union_fst pairs s :
  s ∈ ⋃ (fst <$> pairs) ↔ ∃ p, p ∈ pairs ∧ s ∈ p.1.
Proof.
  rewrite elem_of_union_list. split.
  - intros (X & (p & -> & Hp)%list_elem_of_fmap & Hs). eauto.
  - intros (p & Hp & Hs). exists p.1. split; [|done].
    apply list_elem_of_fmap. eauto.
Qed.

Lemma elem_of_union_snd pairs x :
  x ∈ ⋃ (snd <$> pairs) ↔ ∃ p, p ∈ pairs ∧ x ∈ p.2.
Proof.
  rewrite elem_of_union_list. split.
  - intros (X & (p & -> & Hp)%list_elem_of_fmap & Hs). eauto.
  - intros (p & Hp & Hs). exists p.2. split; [|done].
    apply list_elem_of_fmap. eauto.
Qed.

Lemma elem_of_survivors p groups :
  p ∈ surviving groups ↔ ∃ g, g ∈ groups ∧ survive g = Some p.
Proof. unfold survivors. apply list_elem_of_omap. Qed.

Lemma get_adjacents_build groups s :
  get_adjacents (build groups) s = targets_from s (surviving groups).
Proof.
  destruct (accumulated_build filter_con gameboard u viewing_team
              see_all ignore_units check_vision groups) as (Hm & _ & _ & He).
  unfold get_adjacents. rewrite Hm, He.
  destruct (decide (s ∈ ⋃ (fst <$> surviving groups))) as [|Hs]; [done|].
  by rewrite targets_from_absent.
Qed.

Lemma get_sources_build groups :
  get_sources (build groups) = ⋃ (fst <$> surviving groups).
Proof.
  by destruct (accumulated_build filter_con gameboard u viewing_team
                 see_all ignore_units check_vision groups) as (_ & ? & _ & _).
Qed.

Lemma get_targets_build groups :
  get_targets (build groups) = ⋃ (snd <$> surviving groups).
Proof.
  by destruct (accumulated_build filter_con gameboard u viewing_team
                 see_all ignore_units check_vision groups) as (_ & _ & ? & _).
Qed.

(** What one surviving pair owes to the stages of the constructor. *)
Lemma survive_inv g p :
  survive g = Some p →
  passes_vision_gate check_vision g
  ∧ p.1 ⊆ (resolve g).1
  ∧ p.2 ⊆ (resolve g).2
  ∧ (see_all = false → always_visible g = false →
     is_enemy viewing_team (side u) = true →
     ∀ loc, loc ∈ p.1 ∨ loc ∈ p.2 → fogged viewing_team loc = false)
  ∧ (pass_allied_units g = false → ignore_units = false → check_vision = false →
     ∀ loc, loc ∈ p.2 →
            occupant gameboard viewing_team see_all loc = None).
Proof.
  unfold surviving_locations, passes_vision_gate.
  destruct (check_vision && negb (allow_vision g)) eqn:Hgate; [discriminate|].
  intros [= <-]. split; [done|].
  unfold occupancy_blocking, fog_narrowing.
  split; [|split; [|split]].
  - destruct (negb (pass_allied_units g) && _ && _), (negb see_all && _ && _);
      cbn [fst snd]; try done;
      intros loc Hloc; by apply elem_of_filter in Hloc as [_ ?].
  - destruct (negb (pass_allied_units g) && _ && _), (negb see_all && _ && _);
      cbn [fst snd]; try done; intros loc Hloc;
      repeat (apply elem_of_filter in Hloc as [_ Hloc]); done.
  - intros -> -> -> loc. cbn [negb andb].
    destruct (negb (pass_allied_units g) && _ && _); cbn [fst snd].
    + intros [Hloc|Hloc].
      * by apply elem_of_filter in Hloc as [? _].
      * apply elem_of_filter in Hloc as [_ Hloc].
        by apply elem_of_filter in Hloc as [? _].
    + intros [Hloc|Hloc]; by apply elem_of_filter in Hloc as [? _].
  - intros -> -> -> loc. cbn [negb andb snd].
    intros Hloc. by apply elem_of_filter in Hloc as [? _].
Qed.

(** X10.  The keys of the relation are exactly the aggregate source cells
    (also when the group's target set came out empty), and every cell the
    relation leads to is among the aggregate target cells. *)
Theorem teleport_map_keys_and_values groups :
  dom (teleport_map_ (build groups)) = get_sources (build groups)
  ∧ (∀ s, s ∈ get_sources (build groups)
          ↔ is_Some (teleport_map_ (build groups) !! s))
  ∧ (∀ s, get_adjacents (build groups) s ⊆ get_targets (build groups)).
Proof.
  destruct (accumulated_build filter_con gameboard u viewing_team
              see_all ignore_units check_vision groups) as (Hm & Hs & Ht & He).
  assert (∀ s, s ∈ get_sources (build groups)
               ↔ is_Some (teleport_map_ (build groups) !! s)) as Hkeys.
  { intros s. unfold get_sources. rewrite Hs, Hm.
    destruct (decide (s ∈ ⋃ (fst <$> surviving groups))) as [Hin|Hout].
    - split; [eauto|done].
    - split; [done|]. by intros [? [=]]. }
  split; [|split; [done|]].
  - apply set_eq. intros s. by rewrite elem_of_dom, Hkeys.
  - intros s x. rewrite get_adjacents_build, get_targets_build.
    rewrite elem_of_targets_from, elem_of_union_snd.
    intros (p & Hp & _ & Hx). eauto.
Qed.

Lemma build_determined groups groups' :
  ⋃ (fst <$> surviving groups) = ⋃ (fst <$> surviving groups') →
  ⋃ (snd <$> surviving groups) = ⋃ (snd <$> surviving groups') →
  (∀ s, targets_from s (surviving groups) = targets_from s (surviving groups')) →
  build groups = build groups'.
Proof.
  intros Hfst Hsnd Hfrom. apply (accumulated_eq (surviving groups')).
  - eapply accumulated_transfer; [done..|]. apply accumulated_build.
  - apply accumulated_build.
Qed.

(** X11.  The map does not depend on the order of the groups nor on how
    often a group is listed: two lists with the same groups build the same
    map. *)
Theorem teleport_map_order_irrelevant groups groups' :
  (∀ g, g ∈ groups ↔ g ∈ groups') →
  teleport_map_of filter_con gameboard u viewing_team
    see_all ignore_units check_vision groups
  = teleport_map_of filter_con gameboard u viewing_team
      see_all ignore_units check_vision groups'.
Proof.
  intros Hsame.
  assert (∀ p, p ∈ surviving groups ↔ p ∈ surviving groups') as Hpairs.
  { intros p. rewrite !elem_of_survivors. by setoid_rewrite Hsame. }
  apply build_determined.
  - apply set_eq. intros s. rewrite !elem_of_union_fst. by setoid_rewrite Hpairs.
  - apply set_eq. intros x. rewrite !elem_of_union_snd. by setoid_rewrite Hpairs.
  - intros s. apply set_eq. intros x. rewrite !elem_of_targets_from.
    by setoid_rewrite Hpairs.
Qed.

(** X12.  Building from two lists of groups put one after the other unites
    what each list builds: the adjacents of every cell and both aggregate
    sets. *)
Theorem teleport_map_app groups1 groups2 :
  (∀ s, get_adjacents (build (groups1 ++ groups2)) s
        = get_adjacents (build groups1) s ∪ get_adjacents (build groups2) s)
  ∧ get_sources (build (groups1 ++ groups2))
    = get_sources (build groups1) ∪ get_sources (build groups2)
  ∧ get_targets (build (groups1 ++ groups2))
    = get_targets (build groups1) ∪ get_targets (build groups2).
Proof.
  assert (surviving (groups1 ++ groups2) = surviving groups1 ++ surviving groups2)
    as Happ by apply omap_app.
  split; [|split].
  - intros s. rewrite !get_adjacents_build, Happ. unfold targets_from.
    by rewrite filter_app, fmap_app, union_list_app_L.
  - by rewrite !get_sources_build, Happ, fmap_app, union_list_app_L.
  - by rewrite !get_targets_build, Happ, fmap_app, union_list_app_L.
Qed.

(** X13.  The vision gate: with [check_vision], the groups that do not allow
    vision might as well not be listed; without it, [allow_vision] plays no
    part and every group reaches resolution. *)
Theorem vision_gate_drops_groups groups :
  build groups = build (filter (passes_vision_gate check_vision) groups)
  ∧ (check_vision = true →
     (∀ g, g ∈ groups → allow_vision g = false) →
     build groups = build [])
  ∧ (check_vision = false →
     length (surviving groups) = length groups).
Proof.
  assert (surviving groups
          = surviving (filter (passes_vision_gate check_vision) groups)) as Hsame.
  { induction groups as [|g groups IH]; [done|].
    destruct (decide (passes_vision_gate check_vision g)) as [Hpass|Hstop].
    - rewrite filter_cons_True by done. unfold survivors in *.
      cbn [omap list_omap]. fold (omap (M:=list) survive groups).
      fold (omap (M:=list) survive (filter (passes_vision_gate check_vision) groups)).
      by rewrite IH.
    - rewrite filter_cons_False by done. rewrite <- IH.
      unfold survivors. cbn [omap list_omap].
      unfold surviving_locations at 1. unfold passes_vision_gate in Hstop.
      apply not_false_is_true in Hstop. by rewrite Hstop. }
  assert (build groups = build (filter (passes_vision_gate check_vision) groups))
    as Hbuild by (apply build_determined; by rewrite <- Hsame).
  split; [done|]. split.
  - intros Hcv Hnone. rewrite Hbuild. f_equal. clear Hsame Hbuild.
    induction groups as [|g groups IH]; [done|].
    rewrite filter_cons_False.
    + apply IH. intros g' Hg'. apply Hnone. by right.
    + unfold passes_vision_gate. rewrite Hcv, (Hnone g) by (by left). done.
  - intros Hcv. clear Hsame Hbuild. unfold survivors.
    induction groups as [|g groups IH]; [done|].
    cbn [omap list_omap]. unfold surviving_locations at 1.
    rewrite Hcv in IH. rewrite Hcv. cbn [andb length]. f_equal. exact IH.
Qed.

Lemma survive_unmatched g :
  unit_filter_matches filter_con (child_or_empty (cfg_ g) "filter") u = false →
  survive g = None ∨ survive g = Some (∅, ∅).
Proof.
  intros Hno. unfold surviving_locations.
  destruct (check_vision && negb (allow_vision g)); [by left|right].
  unfold get_teleport_pair. rewrite Hno.
  unfold fog_narrowing, occupancy_blocking.
  destruct (negb see_all && _ && _), (negb (pass_allied_units g) && _ && _);
    cbn [fst snd]; rewrite ?filter_empty_L; try done; apply _.
Qed.

(** X14.  Groups whose unit filter does not match the unit leave no trace in
    the map: it is the map built from the matching groups alone. *)
Theorem unmatched_groups_leave_no_trace groups :
  build groups
  = build (filter (λ g, unit_filter_matches filter_con
                          (child_or_empty (cfg_ g) "filter") u = true) groups).
Proof.
  apply build_determined.
  - induction groups as [|g groups IH]; [done|].
    destruct (unit_filter_matches filter_con (child_or_empty (cfg_ g) "filter") u)
      eqn:Hmatch.
    + rewrite filter_cons_True by done. unfold survivors in *.
      cbn [omap list_omap]. destruct (survive g); [|done].
      cbn [fmap list_fmap union_list foldr]. by f_equal.
    + rewrite filter_cons_False by (by rewrite Hmatch). rewrite <- IH.
      unfold survivors. cbn [omap list_omap].
      destruct (survive_unmatched g Hmatch) as [-> | ->]; [done|].
      cbn [fmap list_fmap union_list foldr fst]. by rewrite (left_id_L ∅ (∪)).
  - induction groups as [|g groups IH]; [done|].
    destruct (unit_filter_matches filter_con (child_or_empty (cfg_ g) "filter") u)
      eqn:Hmatch.
    + rewrite filter_cons_True by done. unfold survivors in *.
      cbn [omap list_omap]. destruct (survive g); [|done].
      cbn [fmap list_fmap union_list foldr]. by f_equal.
    + rewrite filter_cons_False by (by rewrite Hmatch). rewrite <- IH.
      unfold survivors. cbn [omap list_omap].
      destruct (survive_unmatched g Hmatch) as [-> | ->]; [done|].
      cbn [fmap list_fmap union_list foldr snd]. by rewrite (left_id_L ∅ (∪)).
  - intros s. apply set_eq. intros x. rewrite !elem_of_targets_from.
    setoid_rewrite elem_of_survivors. split.
    + intros (p & (g & Hg & Hp) & Hs & Hx). exists p. split; [|done].
      exists g. split; [|done]. apply list_elem_of_filter. split; [|done].
      destruct (unit_filter_matches _ _ _) eqn:Hmatch; [done|].
      destruct (survive_unmatched g Hmatch) as [Hn|Hn]; rewrite Hn in Hp;
        [discriminate|]. injection Hp as <-. by apply not_elem_of_empty in Hs.
    + intros (p & (g & [_ Hg]%list_elem_of_filter & Hp) & Hs & Hx). eauto 6.
Qed.

(** X15.  Nothing leaks through the fog: when the observer does not see all
    and the unit is its enemy, a fogged cell appears among the sources or the
    targets of the map only if some group is always visible. *)
Theorem fogged_cell_needs_always_visible groups loc :
  see_all = false →
  is_enemy viewing_team (side u) = true →
  fogged viewing_team loc = true →
  loc ∈ get_sources (build groups) ∨ loc ∈ get_targets (build groups) →
  ∃ g, g ∈ groups ∧ always_visible g = true.
Proof.
  intros Hsee Henemy Hfog Hin.
  assert (∃ p, p ∈ surviving groups ∧ (loc ∈ p.1 ∨ loc ∈ p.2))
    as (p & (g & Hg & Hp)%elem_of_survivors & Hloc).
  { rewrite get_sources_build, get_targets_build in Hin.
    destruct Hin as [(p & ? & ?)%elem_of_union_fst | (p & ? & ?)%elem_of_union_snd];
      eauto. }
  exists g. split; [done|].
  destruct (always_visible g) eqn:Hvis; [done|].
  destruct (survive_inv g p Hp) as (_ & _ & _ & Hclear & _).
  rewrite (Hclear Hsee Hvis Henemy loc Hloc) in Hfog. discriminate.
Qed.

(** X16.  A blocked exit is no exit: when units are not ignored and vision
    is not being checked, a cell on which the lookup finds a unit appears
    among the targets only if some group lets allied units pass. *)
Theorem occupied_cell_needs_pass_allied_units groups loc :
  ignore_units = false →
  check_vision = false →
  occupant gameboard viewing_team see_all loc ≠ None →
  loc ∈ get_targets (build groups) →
  ∃ g, g ∈ groups ∧ pass_allied_units g = true.
Proof.
  intros Hunits Hvision Hocc Hin.
  rewrite get_targets_build in Hin.
  apply elem_of_union_snd in Hin as (p & (g & Hg & Hp)%elem_of_survivors & Hloc).
  exists g. split; [done|].
  destruct (pass_allied_units g) eqn:Hpass; [done|].
  destruct (survive_inv g p Hp) as (_ & _ & _ & _ & Hfree).
  destruct Hocc. by apply Hfree.
Qed.

(** X17.  The map invents nothing: every source cell, target cell and
    adjacency comes from the resolution of a listed group that passes the
    vision gate and whose unit filter matches the unit. *)
Theorem teleport_map_within_resolution groups :
  (∀ s, s ∈ get_sources (build groups) →
        ∃ g, g ∈ groups ∧ passes_vision_gate check_vision g ∧ s ∈ (resolve g).1)
  ∧ (∀ x, x ∈ get_targets (build groups) →
          ∃ g, g ∈ groups ∧ passes_vision_gate check_vision g ∧ x ∈ (resolve g).2)
  ∧ (∀ s x, x ∈ get_adjacents (build groups) s →
            ∃ g, g ∈ groups
                 ∧ passes_vision_gate check_vision g
                 ∧ unit_filter_matches filter_con
                     (child_or_empty (cfg_ g) "filter") u = true
                 ∧ s ∈ (resolve g).1 ∧ x ∈ (resolve g).2).
Proof.
  split; [|split].
  - intros s. rewrite get_sources_build.
    intros (p & (g & Hg & Hp)%elem_of_survivors & Hs)%elem_of_union_fst.
    destruct (survive_inv g p Hp) as (Hgate & Hsub & _). eauto.
  - intros x. rewrite get_targets_build.
    intros (p & (g & Hg & Hp)%elem_of_survivors & Hx)%elem_of_union_snd.
    destruct (survive_inv g p Hp) as (Hgate & _ & Hsub & _). eauto.
  - intros s x. rewrite get_adjacents_build.
    intros (p & (g & Hg & Hp)%elem_of_survivors & Hs & Hx)%elem_of_targets_from.
    destruct (survive_inv g p Hp) as (Hgate & Hsub1 & Hsub2 & _).
    exists g. repeat split; auto.
    destruct (unit_filter_matches _ _ _) eqn:Hmatch; [done|].
    apply Hsub1 in Hs. unfold get_teleport_pair in Hs. rewrite Hmatch in Hs.
    by apply not_elem_of_empty in Hs.
Qed.
End map_laws.

(** * Further properties of resolution and of the pathfinder's query *)

Section resolution_laws.
Context {attr : Type} `{!AttributeValue attr} {sim : Simulation} `{!FilterEngine attr}.
Implicit Types (g : teleport_group attr) (m : manager.t attr).
Implicit Types (fc : filter_context) (loc_pair : teleport_pair).


Lemma flags_reload g :
  always_visible (reload g) = always_visible g
  ∧ pass_allied_units (reload g) = pass_allied_units g
  ∧ allow_vision (reload g) = allow_vision g.
Proof.
  unfold always_visible, pass_allied_units, allow_vision, reload.
  cbn [cfg_]. unfold teleport_group_to_config.
  by rewrite !config_get_set_ne.
Qed.

Lemma surviving_locations_reload fc (board : game_board) (u : unit)
    (viewing_team : team) (see_all ignore_units check_vision : bool) g :
  surviving_locations fc board u viewing_team see_all ignore_units check_vision
    (reload g)
  = surviving_locations fc board u viewing_team see_all ignore_units check_vision g.
Proof.
  destruct (flags_reload g) as (Hvis & Hpass & Hallow).
  unfold surviving_locations, fog_narrowing, occupancy_blocking.
  by rewrite Hvis, Hpass, Hallow.
Qed.

(** X19.  A save does not change what the pathfinder sees.  A group that
    comes back from a save has the same policy flags and resolves every unit
    to the same pair; hence the manager constructed from a saved manager
    builds, for every unit, observer and flags, the same adjacency map. *)
Theorem reload_preserves_resolution :
  (∀ g, always_visible (reload g) = always_visible g
        ∧ pass_allied_units (reload g) = pass_allied_units g
        ∧ allow_vision (reload g) = allow_vision g
        ∧ ∀ fc loc_pair (u : unit) (ignore_units : bool),
            get_teleport_pair fc (reload g) loc_pair u ignore_units
            = get_teleport_pair fc g loc_pair u ignore_units)
  ∧ (∀ m, Forall well_formed (manager.get m) →
          ∃ m', manager.of_config (manager.to_config m) = Ok m'
                ∧ ∀ fc (board : game_board) (u : unit) (viewing_team : team)
                    (see_all ignore_units check_vision : bool),
                    teleport_map_of fc board u viewing_team
                      see_all ignore_units check_vision (manager.get m')
                    = teleport_map_of fc board u viewing_team
                        see_all ignore_units check_vision (manager.get m)).
Proof.
  split.
  - intros g. destruct (flags_reload g) as (? & ? & ?). by repeat split.
  - intros m Hwf. eexists. split; [by apply of_config_to_config|].
    intros fc board u viewing_team see_all ignore_units check_vision.
    unfold manager.get, teleport_map_of. cbn [manager.tunnels_].
    generalize ({| teleport_map_ := ∅; sources_ := ∅; targets_ := ∅;
                   empty_set_ := ∅ |}).
    induction (manager.tunnels_ m) as [|g ts IH]; intros tm; [done|].
    cbn [fmap list_fmap foldl]. fold (fmap (M:=list) (reload (attr:=attr)) ts).
    unfold teleport_map_step at 2 4.
    rewrite surviving_locations_reload. apply IH.
Qed.
End resolution_laws.

Section query_laws.
Context {attr : Type} `{!AttributeValue attr} {sim : Simulation} `{!FilterEngine attr}.
Variable filter_con : filter_context.
Variable gameboard : game_board.
Variable get_abilities : unit → string → list (config attr).
Variable make_vconfig : config attr → vconfig attr.
Implicit Types (g : teleport_group attr) (m : manager.t attr).
Implicit Types (groups : list (teleport_group attr)).

Local Abbreviation anonymous t :=
  (attr_empty (vconfig_get (make_vconfig t) "id") = true).

Lemma own_groups_of_length (tunnels : list (config attr)) c :
  length (own_groups_of make_vconfig tunnels c) = length tunnels.
Proof.
  revert c. induction tunnels as [|t ts IH]; intros c; [done|].
  cbn [own_groups_of]. destruct (attr_empty _); cbn [length]; by rewrite IH.
Qed.

Lemma own_groups_of_app (ts1 ts2 : list (config attr)) c :
  own_groups_of make_vconfig (ts1 ++ ts2) c
  = own_groups_of make_vconfig ts1 c
    ++ own_groups_of make_vconfig ts2
         (int_add c (Z.of_nat (length (filter (λ t, anonymous t) ts1)))).
Proof.
  revert c. induction ts1 as [|t ts1 IH]; intros c.
  - rewrite filter_nil. cbn [app own_groups_of length].
    by rewrite int_add_0.
  - cbn [app own_groups_of]. rewrite filter_cons.
    destruct (decide (anonymous t)) as [Hanon|Hnamed].
    + rewrite Hanon, IH. cbn [length app]. by rewrite int_add_succ_l.
    + apply not_true_is_false in Hnamed. rewrite Hnamed, IH. by cbn [app].
Qed.

Lemma own_groups_of_forward (tunnels : list (config attr)) c :
  Forall (constructible make_vconfig) tunnels →
  Forall (λ g, reversed_ g = false ∧ well_formed g)
    (own_groups_of make_vconfig tunnels c).
Proof.
  intros Hall. revert c.
  induction Hall as [|t ts Ht _ IH]; intros c; [constructor|].
  cbn [own_groups_of]. destruct (attr_empty _); by constructor.
Qed.

(** What a successful pass over the tunnels of one ability has done. *)
Lemma emplace_tunnels_frame ability_cfg (pre suf : list (config attr)) groups m gs' m' :
  child_range ability_cfg "tunnel" = pre ++ suf →
  emplace_tunnels make_vconfig ability_cfg (seq (length pre) (length suf)) groups m
  = Ok (gs', m') →
  Forall (constructible make_vconfig) suf
  ∧ manager.get m' = manager.get m
  ∧ manager.id_ m'
    = int_add (manager.id_ m) (Z.of_nat (length (filter (λ t, anonymous t) suf)))
  ∧ gs' = groups ++ own_groups_of make_vconfig suf (manager.id_ m).
Proof.
  intros Hrange. revert pre groups m Hrange.
  induction suf as [|t suf IH]; intros pre groups m Hrange.
  - cbn [length seq emplace_tunnels]. intros [= <- <-].
    rewrite filter_nil. cbn [length own_groups_of].
    by rewrite int_add_0, app_nil_r.
  - cbn [length seq emplace_tunnels]. unfold mandatory_child.
    rewrite Hrange, list_lookup_middle by done. cbn [mbind result_bind].
    destruct (teleport_group_of_vconfig (make_vconfig t) false m)
      as [[g m1]|] eqn:Hctor; [|discriminate].
    cbn [fst snd]. intros Hrest.
    pose proof (teleport_group_of_vconfig_inv _ _ _ _ _ Hctor) as (Hs & Ht & Hf).
    rewrite teleport_group_of_vconfig_ok in Hctor by done.
    specialize (IH (pre ++ [t]) (groups ++ [g]) m1).
    rewrite length_app in IH. cbn [length] in IH.
    replace (length pre + 1)%nat with (S (length pre)) in IH by lia.
    destruct IH as (Hall & Hget & Hid & ->); [by rewrite <- app_assoc|done|].
    split; [by constructor|].
    rewrite Hget, Hid, filter_cons. cbn [own_groups_of].
    destruct (decide (anonymous t)) as [Hanon|Hnamed].
    + rewrite Hanon in Hctor |- *. injection Hctor as <- <-.
      cbn [manager.get manager.tunnels_ manager.id_ length].
      by rewrite int_add_succ_l, <- app_assoc.
    + apply not_true_is_false in Hnamed. rewrite Hnamed in Hctor |- *.
      injection Hctor as <- <-. by rewrite <- app_assoc.
Qed.

(** Every tunnel record with one `source`, one `target` and one `filter`
    child is turned into a group. *)
Lemma emplace_tunnels_total ability_cfg (pre suf : list (config attr)) groups m :
  child_range ability_cfg "tunnel" = pre ++ suf →
  Forall (constructible make_vconfig) suf →
  ∃ gs' m',
    emplace_tunnels make_vconfig ability_cfg (seq (length pre) (length suf)) groups m
    = Ok (gs', m').
Proof.
  intros Hrange Hall. revert pre groups m Hrange.
  induction Hall as [|t suf (Hs & Ht & Hf) _ IH]; intros pre groups m Hrange.
  - cbn [length seq emplace_tunnels]. by eexists _, _.
  - cbn [length seq emplace_tunnels]. unfold mandatory_child.
    rewrite Hrange, list_lookup_middle by done. cbn [mbind result_bind].
    rewrite teleport_group_of_vconfig_ok by done.
    specialize (IH (pre ++ [t])).
    rewrite length_app in IH. cbn [length] in IH.
    replace (length pre + 1)%nat with (S (length pre)) in IH by lia.
    destruct (attr_empty _); cbn [mbind result_bind fst snd];
      apply IH; by rewrite <- app_assoc.
Qed.

Lemma ability_groups_frame (abilities : list (config attr)) groups m gs' m' :
  ability_groups make_vconfig abilities groups m = Ok (gs', m') →
  Forall (constructible make_vconfig) (abilities ≫= λ a, child_range a "tunnel")
  ∧ manager.get m' = manager.get m
  ∧ manager.id_ m'
    = int_add (manager.id_ m) (Z.of_nat (anonymous_tunnels make_vconfig abilities))
  ∧ gs' = groups
          ++ own_groups_of make_vconfig (abilities ≫= λ a, child_range a "tunnel")
               (manager.id_ m).
Proof.
  revert groups m. unfold anonymous_tunnels.
  induction abilities as [|a abilities IH]; intros groups m.
  - cbn [ability_groups]. intros [= <- <-].
    change ([] ≫= λ a, child_range a "tunnel") with (@nil (config attr)).
    rewrite filter_nil. cbn [length own_groups_of].
    by rewrite int_add_0, app_nil_r.
  - cbn [ability_groups].
    destruct (emplace_tunnels make_vconfig a _ groups m) as [[gs1 m1]|] eqn:Hinner;
      [|discriminate].
    cbn [mbind result_bind fst snd]. intros Hrest.
    unfold child_count in Hinner.
    destruct (emplace_tunnels_frame a [] (child_range a "tunnel") _ _ _ _
                eq_refl Hinner) as (Hall & Hget & Hid & ->).
    destruct (IH _ _ Hrest) as (Hall' & Hget' & Hid' & ->).
    rewrite bind_cons, filter_app, length_app, own_groups_of_app, Nat2Z.inj_add.
    split; [by apply Forall_app|]. split; [congruence|].
    rewrite Hid', Hid, int_add_add, <- app_assoc. done.
Qed.

Lemma ability_groups_total (abilities : list (config attr)) groups m :
  Forall (constructible make_vconfig) (abilities ≫= λ a, child_range a "tunnel") →
  ∃ gs' m', ability_groups make_vconfig abilities groups m = Ok (gs', m').
Proof.
  revert groups m.
  induction abilities as [|a abilities IH]; intros groups m Hall.
  - cbn [ability_groups]. by eexists _, _.
  - rewrite bind_cons in Hall. apply Forall_app in Hall as [Ha Hrest].
    cbn [ability_groups]. unfold child_count.
    destruct (emplace_tunnels_total a [] (child_range a "tunnel") groups m
                eq_refl Ha) as (gs1 & m1 & Hinner).
    cbn [length] in Hinner. rewrite Hinner. cbn [mbind result_bind fst snd].
    by apply IH.
Qed.

(** X20.  The query succeeds exactly when every tunnel record of the unit's
    teleport abilities has one `source`, one `target` and one `filter` child.
    It then leaves the registered groups alone and has drawn one id from the
    manager's 32-bit counter for every anonymous record.  The map is the one
    constructed from the groups of the unit's own tunnel records, in order,
    each forward, structurally valid, with the record's rule data and the
    record's `id` or else the id drawn for it, followed by the registered
    groups; for a unit without teleport abilities it is the map of the
    registry and the manager is unchanged. *)
Theorem get_teleport_locations_effect (u : unit) (viewing_team : team)
    (see_all ignore_units check_vision : bool) m :
  ((∃ tm m',
      get_teleport_locations filter_con gameboard get_abilities make_vconfig
        u viewing_team see_all ignore_units check_vision m = Ok (tm, m'))
   ↔ Forall (constructible make_vconfig)
       (get_abilities u "teleport" ≫= λ a, child_range a "tunnel"))
  ∧ (∀ tm m',
       get_teleport_locations filter_con gameboard get_abilities make_vconfig
         u viewing_team see_all ignore_units check_vision m = Ok (tm, m') →
       manager.get m' = manager.get m
       ∧ manager.id_ m'
         = int_add (manager.id_ m)
             (Z.of_nat (anonymous_tunnels make_vconfig (get_abilities u "teleport")))
       ∧ length (own_groups_of make_vconfig
                   (get_abilities u "teleport" ≫= λ a, child_range a "tunnel")
                   (manager.id_ m))
         = length (get_abilities u "teleport" ≫= λ a, child_range a "tunnel")
       ∧ Forall (λ g, reversed_ g = false ∧ well_formed g)
           (own_groups_of make_vconfig
              (get_abilities u "teleport" ≫= λ a, child_range a "tunnel")
              (manager.id_ m))
       ∧ tm = teleport_map_of filter_con gameboard u viewing_team
                see_all ignore_units check_vision
                (own_groups_of make_vconfig
                   (get_abilities u "teleport" ≫= λ a, child_range a "tunnel")
                   (manager.id_ m)
                 ++ manager.get m))
  ∧ (get_abilities u "teleport" = [] →
     get_teleport_locations filter_con gameboard get_abilities make_vconfig
       u viewing_team see_all ignore_units check_vision m
     = Ok (teleport_map_of filter_con gameboard u viewing_team
             see_all ignore_units check_vision (manager.get m), m)).
Proof.
  split; [|split].
  - unfold get_teleport_locations. split.
    + intros (tm & m' & Hok).
      destruct (ability_groups make_vconfig _ [] m) as [[gs m1]|] eqn:Hown;
        [|discriminate].
      by destruct (ability_groups_frame _ _ _ _ _ Hown) as (Hall & _).
    + intros Hall.
      destruct (ability_groups_total _ [] m Hall) as (gs & m1 & ->).
      cbn [mbind result_bind mret result_ret fst snd]. by eexists _, _.
  - intros tm m'. unfold get_teleport_locations.
    destruct (ability_groups make_vconfig _ [] m) as [[gs m1]|] eqn:Hown;
      [|discriminate].
    cbn [mbind result_bind mret result_ret fst snd]. intros [= <- <-].
    destruct (ability_groups_frame _ _ _ _ _ Hown) as (Hall & Hget & Hid & ->).
    split; [done|]. split; [done|].
    split; [apply own_groups_of_length|].
    split; [by apply own_groups_of_forward|].
    cbn [app]. by rewrite Hget.
  - intros Hnone. unfold get_teleport_locations. by rewrite Hnone.
Qed.

(** X21.  Whatever the unit's own abilities contribute, the registered
    groups are all taken into account: the surviving pair of every
    registered group is part of the map a successful query returns. *)
Theorem get_teleport_locations_includes_registry (u : unit) (viewing_team : team)
    (see_all ignore_units check_vision : bool) m (tm : teleport_map) m' g
    (p : teleport_pair) :
  get_teleport_locations filter_con gameboard get_abilities make_vconfig
    u viewing_team see_all ignore_units check_vision m = Ok (tm, m') →
  g ∈ manager.get m →
  surviving_locations filter_con gameboard u viewing_team
    see_all ignore_units check_vision g = Some p →
  p.1 ⊆ get_sources tm
  ∧ p.2 ⊆ get_targets tm
  ∧ ∀ s, s ∈ p.1 → p.2 ⊆ get_adjacents tm s.
Proof.
  unfold get_teleport_locations.
  destruct (ability_groups make_vconfig _ [] m) as [[gs m1]|] eqn:Hown;
    [|discriminate].
  cbn [mbind result_bind mret result_ret fst snd]. intros [= <- <-] Hg Hp.
  destruct (ability_groups_frame _ _ _ _ _ Hown) as (_ & Hget & _).
  assert (p ∈ survivors filter_con gameboard u viewing_team
                see_all ignore_units check_vision (gs ++ manager.get m1)) as Hin.
  { apply elem_of_survivors. exists g. split; [|done].
    apply elem_of_app. right. by rewrite Hget. }
  split; [|split].
  - intros s Hs. rewrite get_sources_build. apply elem_of_union_fst. eauto.
  - intros x Hx. rewrite get_targets_build. apply elem_of_union_snd. eauto.
  - intros s Hs x Hx. rewrite get_adjacents_build.
    apply elem_of_targets_from. eauto.
Qed.
End query_laws.

(** * Instances of the further properties on the sample world *)

Lemma policy_defaults_witness :
  values (cfg_ sample.g_a) !! "always_visible" = None
  ∧ always_visible sample.g_a = false
  ∧ pass_allied_units sample.g_a = true
  ∧ allow_vision sample.g_a = true
  ∧ pass_allied_units sample.g_blocking = false.
Proof.
  split; [reflexivity|].
  destruct (policy_defaults sample.g_a eq_refl eq_refl eq_refl) as (Hv & Hp & Ha).
  repeat split; try assumption.
Defined.

Lemma teleport_group_of_config_accepts_witness :
  loadable sample.kept_record
  ∧ teleport_group_of_config sample.kept_record
    = Ok (sample.group "kept" true sample.kept_record).
Proof.
  assert (loadable sample.kept_record) as Hload by (repeat split).
  split; [exact Hload|].
  destruct (teleport_group_of_config_accepts sample.kept_record) as [Hok _].
  exact (Hok Hload).
Defined.

Lemma teleport_group_of_config_rejects_witness :
  teleport_group_of_config sample.no_id
  = Throw (missing_mandatory_wml_key "tunnel" "id")
  ∧ teleport_group_of_config sample.two_sources
    = Throw (wml_exception "The tunnel should have only one 'source' child.").
Proof.
  split.
  - destruct (teleport_group_of_config_rejects sample.no_id) as (Hid & _).
    exact (Hid eq_refl).
  - destruct (teleport_group_of_config_rejects sample.two_sources)
      as (_ & _ & Hsource & _).
    apply Hsource; [reflexivity|reflexivity|discriminate].
Defined.

Lemma teleport_group_of_vconfig_effect_witness :
  ∃ g m',
    teleport_group_of_vconfig sample.anonymous true sample.registry = Ok (g, m')
    ∧ reversed_ g = true
    ∧ manager.get m' = manager.get sample.registry
    ∧ manager.id_ m' = int_of 4.
Proof.
  destruct (teleport_group_of_vconfig_effect sample.anonymous true sample.registry)
    as (Hiff & Hframe & _).
  destruct Hiff as [_ Hok].
  destruct Hok as (g & m' & Hctor); [by repeat split|].
  exists g, m'. destruct (Hframe g m' Hctor) as (_ & Hrev & _ & Hget & Hid).
  repeat split; [exact Hctor|exact Hrev|exact Hget|].
  rewrite Hid. reflexivity.
Defined.

Lemma numeric_name_meets_counter_id_witness :
  ∃ g1 m1 g2 m2,
    teleport_group_of_vconfig sample.numbered false sample.fresh = Ok (g1, m1)
    ∧ teleport_group_of_vconfig sample.anonymous false (manager.add m1 g1)
      = Ok (g2, m2)
    ∧ get_teleport_id g1 = "1"
    ∧ get_teleport_id g1 = get_teleport_id g2
    ∧ manager.get (manager.remove (manager.add m2 g2) (get_teleport_id g2)) = [].
Proof.
  edestruct (numeric_name_meets_counter_id sample.numbered sample.anonymous
               sample.fresh) as (Hsame & _ & Hremove);
    [reflexivity|reflexivity|reflexivity|reflexivity|reflexivity|].
  do 4 eexists. split; [reflexivity|]. split; [reflexivity|].
  split; [reflexivity|]. split; [exact Hsame|]. rewrite Hremove. reflexivity.
Defined.

Lemma remove_laws_witness :
  manager.get (manager.remove sample.registry "a") = [sample.g_b]
  ∧ manager.remove (manager.remove sample.registry "a") "b"
    = manager.remove (manager.remove sample.registry "b") "a".
Proof.
  split; [reflexivity|].
  by destruct (remove_laws sample.registry "a" "b") as (_ & _ & Hcomm).
Defined.

Lemma remove_after_add_witness :
  selected_by "a" sample.g_a_reversed
  ∧ manager.remove (manager.add sample.fresh sample.g_a_reversed) "a"
    = manager.remove sample.fresh "a"
  ∧ manager.remove (manager.add sample.fresh sample.g_b) "a"
    = manager.add (manager.remove sample.fresh "a") sample.g_b.
Proof.
  assert (selected_by "a" sample.g_a_reversed) as Hsel by (by right).
  split; [exact Hsel|]. split.
  - destruct (remove_after_add sample.fresh sample.g_a_reversed "a") as (Hyes & _).
    exact (Hyes Hsel).
  - destruct (remove_after_add sample.fresh sample.g_b "a") as (_ & Hno & _).
    apply Hno. by intros [?|?].
Defined.

Lemma of_config_loads_saved_records_witness :
  child_range sample.scenario "tunnel"
  = [sample.tunnel {["id" := "raw"; "reversed" := "no"]} "1" "1" "5" "5";
     sample.kept_record]
  ∧ manager.of_config sample.scenario
    = Ok {| manager.tunnels_ := [sample.group "kept" true sample.kept_record];
            manager.id_ := int_of 5 |}
  ∧ manager.of_config
      (add_child (add_child sample.scenario "tunnel" sample.no_id)
         "tunnel" sample.kept_record)
    = Throw (missing_mandatory_wml_key "tunnel" "id").
Proof.
  assert (child_range sample.scenario "tunnel"
          = [sample.tunnel {["id" := "raw"; "reversed" := "no"]} "1" "1" "5" "5";
             sample.kept_record]) as Hrange by reflexivity.
  assert (Forall (λ t, saved t → loadable t) (child_range sample.scenario "tunnel"))
    as Hvalid.
  { rewrite Hrange. constructor; [intros Hs; by vm_compute in Hs|].
    constructor; [intros _; by repeat split|constructor]. }
  split; [exact Hrange|]. split.
  - destruct (of_config_loads_saved_records sample.scenario) as (Hload & _).
    rewrite (Hload Hvalid). reflexivity.
  - destruct (of_config_loads_saved_records
                (add_child (add_child sample.scenario "tunnel" sample.no_id)
                   "tunnel" sample.kept_record)) as (_ & _ & Hreject & _).
    apply (Hreject (child_range sample.scenario "tunnel") sample.no_id
             [sample.kept_record]); [reflexivity|exact Hvalid|reflexivity|reflexivity].
Defined.

Lemma to_config_stable_witness :
  Forall well_formed (manager.get sample.registry)
  ∧ ∃ m', manager.of_config (manager.to_config sample.registry) = Ok m'
          ∧ manager.to_config m' = manager.to_config sample.registry.
Proof.
  assert (Forall well_formed (manager.get sample.registry)) as Hwf
    by (repeat constructor).
  split; [exact Hwf|].
  destruct (to_config_stable sample.registry Hwf) as (m' & Hload & Hsame & _).
  exists m'. by split.
Defined.

Lemma ids_unique_across_reload_witness :
  (run_calls [call_next_unique_id; call_next_unique_id] sample.registry).1 = ["4"; "5"]
  ∧ ∃ m',
      manager.of_config
        (manager.to_config
           (run_calls [call_next_unique_id; call_next_unique_id] sample.registry).2)
      = Ok m'
      ∧ NoDup ((run_calls [call_next_unique_id; call_next_unique_id]
                  sample.registry).1
               ++ (run_calls [call_next_unique_id] m').1).
Proof.
  split; [reflexivity|].
  apply (ids_unique_across_reload sample.registry
           [call_next_unique_id; call_next_unique_id] [call_next_unique_id]).
  - repeat constructor.
  - by vm_compute.
Defined.

Section map_instances.
Import sample.

Local Abbreviation build_sample see_all ignore_units check_vision :=
  (teleport_map_of (sim:=simulation) filter_con board (2 : Z) team1
     see_all ignore_units check_vision).

Lemma teleport_map_keys_and_values_witness :
  dom (teleport_map_ (build_sample true false false [g_a; g_b])) = {[ (1, 1) ]}
  ∧ get_sources (build_sample true false false [g_a; g_b]) = {[ (1, 1) ]}
  ∧ get_adjacents (build_sample true false false [g_a; g_b]) (1, 1)
      ⊆ get_targets (build_sample true false false [g_a; g_b]).
Proof.
  destruct (teleport_map_keys_and_values (sim:=simulation) filter_con board (2 : Z)
              team1 true false false [g_a; g_b]) as (Hdom & _ & Hsub).
  split; [by rewrite Hdom|]. split; [reflexivity|apply Hsub].
Defined.

Lemma teleport_map_order_irrelevant_witness :
  build_sample true true false [g_a; g_b]
  = build_sample true true false [g_b; g_a; g_b].
Proof.
  apply (teleport_map_order_irrelevant (sim:=simulation)).
  intros g. rewrite !elem_of_cons, elem_of_nil. tauto.
Defined.

Lemma teleport_map_app_witness :
  get_adjacents (build_sample true true false ([g_a] ++ [g_b])) (1, 1)
  = {[ (5, 5) ]} ∪ {[ (6, 6) ]}.
Proof.
  destruct (teleport_map_app (sim:=simulation) filter_con board (2 : Z) team1
              true true false [g_a] [g_b]) as (Hadj & _ & _).
  rewrite Hadj. reflexivity.
Defined.

Lemma vision_gate_drops_groups_witness :
  allow_vision g_blind = false
  ∧ build_sample true true true [g_blind] = build_sample true true true []
  ∧ get_targets (build_sample true true false [g_blind]) = {[ (6, 6) ]}.
Proof.
  split; [reflexivity|]. split; [|reflexivity].
  destruct (vision_gate_drops_groups (sim:=simulation) filter_con board (2 : Z)
              team1 true true true [g_blind]) as (_ & Hnone & _).
  apply Hnone; [reflexivity|].
  intros g Hg. apply list_elem_of_singleton in Hg as ->. reflexivity.
Defined.

Lemma unmatched_groups_leave_no_trace_witness :
  unit_filter_matches filter_con (child_or_empty (cfg_ g_side7) "filter") (2 : Z)
  = false
  ∧ build_sample true true false [g_side7; g_a] = build_sample true true false [g_a].
Proof.
  split; [reflexivity|].
  rewrite (unmatched_groups_leave_no_trace (sim:=simulation) filter_con board
             (2 : Z) team1 true true false [g_side7; g_a]).
  reflexivity.
Defined.

Lemma fogged_cell_needs_always_visible_witness :
  fogged team1 (5, 5) = true
  ∧ (5, 5) ∈ get_targets (build_sample false true false [g_a; g_beacon])
  ∧ ((5, 5) ∉ get_targets (build_sample false true false [g_a]))
  ∧ ∃ g, g ∈ [g_a; g_beacon] ∧ always_visible g = true.
Proof.
  assert ((5, 5) ∈ get_targets (build_sample false true false [g_a; g_beacon]))
    as Hin.
  { assert (get_targets (build_sample false true false [g_a; g_beacon])
            = {[ (5, 5) ]}) as -> by reflexivity.
    by apply elem_of_singleton. }
  split; [reflexivity|]. split; [exact Hin|]. split.
  - assert (get_targets (build_sample false true false [g_a]) = ∅) as ->
      by reflexivity.
    apply not_elem_of_empty.
  - apply (fogged_cell_needs_always_visible (sim:=simulation) filter_con board
             (2 : Z) team1 false true false [g_a; g_beacon] (5, 5));
      [reflexivity|reflexivity|reflexivity|by right].
Defined.

Lemma occupied_cell_needs_pass_allied_units_witness :
  occupant board team1 true (5, 5) = Some (2 : Z)
  ∧ (5, 5) ∈ get_targets
               (teleport_map_of (sim:=simulation) filter_con_empty board (2 : Z)
                  team1 true false false [g_a; g_blocking])
  ∧ ∃ g, g ∈ [g_a; g_blocking] ∧ pass_allied_units g = true.
Proof.
  assert ((5, 5) ∈ get_targets
            (teleport_map_of (sim:=simulation) filter_con_empty board (2 : Z)
               team1 true false false [g_a; g_blocking])) as Hin.
  { assert (get_targets
              (teleport_map_of (sim:=simulation) filter_con_empty board (2 : Z)
                 team1 true false false [g_a; g_blocking]) = {[ (5, 5) ]}) as ->
      by reflexivity.
    by apply elem_of_singleton. }
  split; [reflexivity|]. split; [exact Hin|].
  apply (occupied_cell_needs_pass_allied_units (sim:=simulation) filter_con_empty
           board (2 : Z) team1 true false false [g_a; g_blocking] (5, 5));
    [reflexivity|reflexivity|discriminate|exact Hin].
Defined.

Lemma teleport_map_within_resolution_witness :
  (6, 6) ∈ get_adjacents (build_sample true true false [g_a; g_b]) (1, 1)
  ∧ ∃ g, g ∈ [g_a; g_b]
         ∧ (1, 1) ∈ (get_teleport_pair filter_con g (∅, ∅) (2 : Z) true).1
         ∧ (6, 6) ∈ (get_teleport_pair filter_con g (∅, ∅) (2 : Z) true).2.
Proof.
  assert ((6, 6) ∈ get_adjacents (build_sample true true false [g_a; g_b]) (1, 1))
    as Hin.
  { assert (get_adjacents (build_sample true true false [g_a; g_b]) (1, 1)
            = {[ (5, 5); (6, 6) ]}) as -> by (vm_compute; reflexivity).
    apply elem_of_union. right. by apply elem_of_singleton. }
  split; [exact Hin|].
  destruct (teleport_map_within_resolution (sim:=simulation) filter_con board
              (2 : Z) team1 true true false [g_a; g_b]) as (_ & _ & Hadj).
  destruct (Hadj (1, 1) (6, 6) Hin) as (g & Hg & _ & _ & Hs & Hx). eauto.
Defined.


Lemma reload_preserves_resolution_witness :
  Forall well_formed (manager.get registry)
  ∧ ∃ m', manager.of_config (manager.to_config registry) = Ok m'
          ∧ build_sample false true false (manager.get m')
            = build_sample false true false (manager.get registry).
Proof.
  assert (Forall well_formed (manager.get registry)) as Hwf by (repeat constructor).
  split; [exact Hwf|].
  destruct (reload_preserves_resolution (attr:=string) (sim:=simulation))
    as (_ & Hmanager).
  destruct (Hmanager registry Hwf) as (m' & Hload & Hsame).
  exists m'. split; [exact Hload|apply Hsame].
Defined.

Lemma get_teleport_locations_effect_witness :
  anonymous_tunnels as_vconfig (get_abilities 7 "teleport") = 1%nat
  ∧ ∃ tm m',
      get_teleport_locations (sim:=simulation) filter_con board get_abilities
        as_vconfig (7 : Z) team1 true true false registry = Ok (tm, m')
      ∧ manager.get m' = manager.get registry
      ∧ manager.id_ m' = int_of 4
      ∧ tm = build_sample true true false
               (own_groups_of as_vconfig
                  (get_abilities 7 "teleport" ≫= λ a, child_range a "tunnel")
                  (int_of 3)
                ++ manager.get registry).
Proof.
  split; [reflexivity|].
  destruct (get_teleport_locations_effect (sim:=simulation) filter_con board
              get_abilities as_vconfig (7 : Z) team1 true true false registry)
    as (_ & Hframe & _).
  do 2 eexists. split; [reflexivity|].
  edestruct Hframe as (Hget & Hid & _ & _ & Hmap); [reflexivity|].
  split; [exact Hget|]. split; [rewrite Hid; reflexivity|exact Hmap].
Defined.

Lemma get_teleport_locations_includes_registry_witness :
  ∃ tm m',
    get_teleport_locations (sim:=simulation) filter_con board get_abilities
      as_vconfig (7 : Z) team1 true true false registry = Ok (tm, m')
    ∧ {[ (6, 6) ]} ⊆ get_targets tm
    ∧ {[ (6, 6) ]} ⊆ get_adjacents tm (1, 1).
Proof.
  destruct (get_teleport_locations (sim:=simulation) filter_con board get_abilities
              as_vconfig (7 : Z) team1 true true false registry)
    as [[tm m']|e] eqn:Hquery; [|by vm_compute in Hquery].
  exists tm, m'. split; [reflexivity|].
  destruct (get_teleport_locations_includes_registry (sim:=simulation)
              filter_con board get_abilities as_vconfig (7 : Z) team1
              true true false registry tm m' g_b ({[ (1, 1) ]}, {[ (6, 6) ]})
              Hquery
              (list_elem_of_further _ _ _
                 (list_elem_of_further _ _ _ (list_elem_of_here _ _)))
              eq_refl)
    as (_ & Htargets & Hadj).
  split; [exact Htargets|]. apply Hadj. by apply elem_of_singleton.
Defined.
End map_instances.
